(** * wherehows-web: metadata-acquisition constants and the SchemaDefinition record

    A shallow embedding of
    - [wherehows-web/app/constants/metadata-acquisition.ts]: the classification
      lookup tables, the dropdown options derived from them, the identifier-type
      predicates and the label formatters;
    - the [com.linkedin.schema.SchemaDefinition] record declaration.

    JavaScript strings are modelled by [string]; the model covers the ASCII
    fragment, which is where the character classes [[A-Z]], [[a-z]], [_] and
    [/] used by the module live.  JavaScript objects used as ordered maps are
    association lists in insertion order. *)

From Stdlib Require Import String Ascii List NArith ZArith Bool Arith Lia.
From Stdlib Require Import Sorting.Sorted Sorting.Permutation.
From Stdlib Require Import Structures.OrdersEx.
Import ListNotations.

Open Scope string_scope.

(* ===================================================================== *)
(** ** Characters and strings *)
(* ===================================================================== *)

Module JsString.

Definition code (c : ascii) : N := N_of_ascii c.

(** The character class [[A-Z]]. *)
Definition is_upper (c : ascii) : bool :=
  ((65 <=? code c) && (code c <=? 90))%N.

(** The character class [[a-z]]. *)
Definition is_lower (c : ascii) : bool :=
  ((97 <=? code c) && (code c <=? 122))%N.

Definition char_toUpperCase (c : ascii) : ascii :=
  if is_lower c then ascii_of_N (code c - 32) else c.

Definition char_toLowerCase (c : ascii) : ascii :=
  if is_upper c then ascii_of_N (code c + 32) else c.

Fixpoint map_chars (f : ascii -> ascii) (s : string) : string :=
  match s with
  | EmptyString => EmptyString
  | String c r => String (f c) (map_chars f r)
  end.

(** [String.prototype.toUpperCase] and [String.prototype.toLowerCase]. *)
Definition toUpperCase : string -> string := map_chars char_toUpperCase.
Definition toLowerCase : string -> string := map_chars char_toLowerCase.

(** Number of leading characters of [s] that belong to the class [p]. *)
Fixpoint prefix_len (p : ascii -> bool) (s : string) : nat :=
  match s with
  | EmptyString => 0
  | String c r => if p c then S (prefix_len p r) else 0
  end.

(** A regular expression is represented by its matcher at the current
    position: given whether the position is the start of the subject and the
    remaining subject, it returns the length of the match, if any. *)
Definition Matcher := bool -> string -> option nat.

(** [subject.replace(re, fn)] for a global regular expression [re] and a
    replacer callback [fn].  [skip] counts the characters of the last match
    that are still to be consumed, as [lastIndex] does in the engine. *)
Fixpoint replace_g (re : Matcher) (fn : string -> string)
         (skip : nat) (at_start : bool) (s : string) : string :=
  match s with
  | EmptyString => EmptyString
  | String c r =>
      match skip with
      | S k => replace_g re fn k false r
      | O =>
          match re at_start s with
          | Some (S k) => fn (substring 0 (S k) s) ++ replace_g re fn k false r
          | Some O => fn EmptyString ++ String c (replace_g re fn 0 false r)
          | None => String c (replace_g re fn 0 false r)
          end
      end
  end.

Definition replace (re : Matcher) (fn : string -> string) (s : string) : string :=
  replace_g re fn 0 true s.

(** [/[A-Z]/g] *)
Definition re_upper : Matcher := fun _ s =>
  match s with
  | String c _ => if is_upper c then Some 1 else None
  | EmptyString => None
  end.

(** [/_/g] *)
Definition re_underscore : Matcher := fun _ s =>
  match s with
  | String c _ => if Ascii.eqb c "_" then Some 1 else None
  | EmptyString => None
  end.

(** [/([A-Z]{3,})/g]: the quantifier is greedy, so a match takes every
    upper-case letter available at the position. *)
Definition re_upper_run3 : Matcher := fun _ s =>
  let n := prefix_len is_upper s in
  if (3 <=? n)%nat then Some n else None.

(** The expression of Ember's [capitalize],
    [/(^|\/)([a-z\u00C0-\u024F])/g], on ASCII subjects, where its letter
    class is [[a-z]].  A subject with a letter of U+00C0-U+024F at the start
    or after a slash is outside this matcher. *)
Definition re_capitalize : Matcher := fun at_start s =>
  match s with
  | String c r =>
      if at_start && is_lower c then Some 1
      else if Ascii.eqb c "/" then
        match r with
        | String d _ => if is_lower d then Some 2 else None
        | EmptyString => None
        end
      else None
  | EmptyString => None
  end.

End JsString.
Import JsString.

(** [capitalize] of [@ember/string] (also reachable as
    [Ember.String.capitalize]).  The library implements it as
    [str.replace(/(^|\/)([a-z\u00C0-\u024F])/g, m => m.toUpperCase())]: the
    first character and every character that directly follows a slash are
    upper-cased when they are lower-case letters, as in the library's
    documented example
    [capitalize('privateDocs/ownerInvoice') = 'PrivateDocs/OwnerInvoice'].
    This definition is the library function on ASCII strings; statements that
    depend on what it does to other letters carry the hypothesis
    [ascii_only]. *)
Definition capitalize (str : string) : string :=
  replace re_capitalize toUpperCase str.

(** [formatAsCapitalizedStringWithSpaces], metadata-acquisition.ts l.94-95. *)
Definition formatAsCapitalizedStringWithSpaces (str : string) : string :=
  capitalize (replace re_upper (fun m => " " ++ m) str).

(* ===================================================================== *)
(** ** Objects and arrays *)
(* ===================================================================== *)

(** A JavaScript object used as a map from property names to values.  The
    property names of this module are logical-type names, none of which is an
    array index, so the properties are enumerated in insertion order. *)
Module JsObject.

Definition t (V : Type) : Type := list (string * V).

Definition empty {V : Type} : t V := [].

(** The own property [k] of [o]: [o[k]] when [o] has an own property of that
    name, [None] when it has none.  Members inherited from [Object.prototype]
    are not entries of the map and are not looked at. *)
Fixpoint get {V : Type} (o : t V) (k : string) : option V :=
  match o with
  | [] => None
  | (k', v) :: o' => if String.eqb k' k then Some v else get o' k
  end.

(** [o[k] = v]: an existing property keeps its position, a new one is
    appended. *)
Fixpoint set {V : Type} (o : t V) (k : string) (v : V) : t V :=
  match o with
  | [] => [(k, v)]
  | (k', v') :: o' =>
      if String.eqb k' k then (k', v) :: o' else (k', v') :: set o' k v
  end.

(** The object literal [{ [k]: v }]. *)
Definition singleton {V : Type} (k : string) (v : V) : t V := set empty k v.

(** [Object.assign(target, source)]; the spread [{ ...a, ...b }] is
    [assign (assign empty a) b]. *)
Definition assign {V : Type} (target source : t V) : t V :=
  fold_left (fun acc kv => set acc (fst kv) (snd kv)) source target.

Definition keys {V : Type} (o : t V) : list string := map fst o.

(** [Object.values(o)] *)
Definition values {V : Type} (o : t V) : list V := map snd o.

End JsObject.

Module JsArray.

(** [iter.indexOf(x)] on an array of strings: the first index holding a
    value strictly equal to [x], or [-1]. *)
Fixpoint indexOf_from (iter : list string) (x : string) (i : Z) : Z :=
  match iter with
  | [] => (-1)%Z
  | y :: r => if String.eqb y x then i else indexOf_from r x (i + 1)%Z
  end.

Definition indexOf (iter : list string) (x : string) : Z := indexOf_from iter x 0%Z.

(** [iter.filter((x, index, iter) => ...)] *)
Fixpoint filter_from {A : Type} (f : A -> Z -> list A -> bool)
         (iter : list A) (index : Z) (l : list A) : list A :=
  match l with
  | [] => []
  | x :: r =>
      if f x index iter then x :: filter_from f iter (index + 1)%Z r
      else filter_from f iter (index + 1)%Z r
  end.

Definition filter {A : Type} (f : A -> Z -> list A -> bool) (iter : list A) : list A :=
  filter_from f iter 0%Z iter.

(** [l.reduce(f, init)] *)
Definition reduce {A B : Type} (f : B -> A -> B) (init : B) (l : list A) : B :=
  fold_left f l init.

(** The array returned by [l.sort()] on an array of strings: with no
    comparator the elements are ordered by their code units.  The order is
    total and equal strings are indistinguishable, so the result does not
    depend on the engine's sorting algorithm; insertion sort computes it.
    The call also leaves [l] itself sorted, which [sort_in_place] records. *)
Fixpoint insert (x : string) (l : list string) : list string :=
  match l with
  | [] => [x]
  | y :: r => if String.leb x y then x :: y :: r else y :: insert x r
  end.

Fixpoint sort (l : list string) : list string :=
  match l with
  | [] => []
  | x :: r => insert x (sort r)
  end.

(** [l.sort()] with its effect: the array is sorted in place and returned, so
    the returned value and the new content of [l] are the same array. *)
Definition sort_in_place (l : list string) : list string * list string :=
  (sort l, sort l).

End JsArray.

(* ===================================================================== *)
(** ** The imported compliance constants *)
(* ===================================================================== *)

(** The members of the [Classification] enumeration are strings. *)
Definition Classification : Type := string.

(** An entry of the registry [nonIdFieldLogicalTypes]. *)
Record NonIdLogicalTypeEntry : Type := {
  classification : Classification;
  displayAs : string
}.

(** The values imported from [wherehows-web/constants/datasets/compliance]
    that the classification tables and the label lists are derived from.  The
    registry has an entry for every generic logical type. *)
Class Compliance : Type := {
  LimitedDistribution : Classification;
  customIdLogicalTypes : list string;
  idLogicalTypes : list string;
  genericLogicalTypes : list string;
  nonIdFieldLogicalTypes : string -> NonIdLogicalTypeEntry
}.

Module IdentifierType.
(** An entry of [fieldIdentifierTypes]; only [value] is read here. *)
Record t : Type := { value : string }.
End IdentifierType.

(** The entries of the imported [fieldIdentifierTypes] that the predicates
    read. *)
Class FieldIdentifierTypes : Type := {
  generic : IdentifierType.t;
  custom : IdentifierType.t
}.

(** Modelled from the spec: the table [fieldIdentifierTypes] is declared in
    [wherehows-web/constants/datasets/compliance]; the spec names its literal
    category constants, "generic" for the mixed identifier category and
    "custom" for the custom one. *)
Definition spec_fieldIdentifierTypes : FieldIdentifierTypes := {|
  generic := {| IdentifierType.value := "generic" |};
  custom := {| IdentifierType.value := "custom" |}
|}.

(* ===================================================================== *)
(** ** metadata-acquisition.ts *)
(* ===================================================================== *)

Module SecurityClassificationOption.
(** [ISecurityClassificationOption] *)
Record t : Type := { value : string; label : string }.
End SecurityClassificationOption.

Module FieldFormatDropdownOption.
(** [IFieldFormatDropdownOption] *)
Record t : Type := { value : string; label : string }.
End FieldFormatDropdownOption.

Definition ISecurityClassificationOption : Type := SecurityClassificationOption.t.
Definition IFieldFormatDropdownOption : Type := FieldFormatDropdownOption.t.

(** l.54-61 *)
Definition idFieldDataTypeClassification `{Compliance} : JsObject.t Classification :=
  JsArray.reduce
    (fun classification idLogicalType =>
       JsObject.assign classification (JsObject.singleton idLogicalType LimitedDistribution))
    JsObject.empty
    (customIdLogicalTypes ++ idLogicalTypes).

(** l.67-73 *)
Definition nonIdFieldDataTypeClassification `{Compliance} : JsObject.t Classification :=
  JsArray.reduce
    (fun classification_ logicalType =>
       JsObject.assign classification_
         (JsObject.singleton logicalType (classification (nonIdFieldLogicalTypes logicalType))))
    JsObject.empty
    genericLogicalTypes.

(** l.79 *)
Definition defaultFieldDataTypeClassification `{Compliance} : JsObject.t Classification :=
  JsObject.assign
    (JsObject.assign JsObject.empty idFieldDataTypeClassification)
    nonIdFieldDataTypeClassification.

(** l.85-87: the array that the initialiser of [classifiers] evaluates to.
    l.103 later sorts this array in place, see [classifiers_loaded]. *)
Definition classifiers `{Compliance} : list Classification :=
  JsArray.filter
    (fun classifier index iter => Z.eqb (JsArray.indexOf iter classifier) index)
    (JsObject.values defaultFieldDataTypeClassification).

(** The content of the constant [classifiers] once l.101-107 has run:
    [classifiers.sort()] at l.103 has sorted the array in place. *)
Definition classifiers_loaded `{Compliance} : list Classification :=
  snd (JsArray.sort_in_place classifiers).

(** A string is truthy when it is not empty. *)
Definition truthy (s : string) : bool :=
  match s with
  | EmptyString => false
  | String _ _ => true
  end.

(** l.101-107 *)
Definition securityClassificationDropdownOptions `{Compliance}
  : list ISecurityClassificationOption :=
  map
    (fun value =>
       {| SecurityClassificationOption.value := value;
          SecurityClassificationOption.label :=
            if truthy value then formatAsCapitalizedStringWithSpaces value else "..." |})
    ("" :: JsArray.sort classifiers).

(** l.114 *)
Definition isMixedId `{FieldIdentifierTypes} (identifierType : string) : bool :=
  String.eqb identifierType (IdentifierType.value generic).

(** l.120 *)
Definition isCustomId `{FieldIdentifierTypes} (identifierType : string) : bool :=
  String.eqb identifierType (IdentifierType.value custom).

(** l.128-130 *)
Definition hasPredefinedFieldFormat `{FieldIdentifierTypes} (identifierType : string) : bool :=
  isMixedId identifierType || isCustomId identifierType.

(** l.137-141; [None] is the [undefined] of a call that reaches the end of
    the body without returning. *)
Definition getDefaultLogicalType `{FieldIdentifierTypes} (identifierType : string)
  : option string :=
  if isMixedId identifierType then Some "URN" else None.

(** The type parameter [K extends 'id' | 'generic']. *)
Inductive LogicalTypeKind : Type := K_id | K_generic.

(** l.150-174 *)
Definition logicalTypeValueLabel `{Compliance} (logicalType : LogicalTypeKind)
  : list IFieldFormatDropdownOption :=
  let logicalTypes :=
    match logicalType with
    | K_id => idLogicalTypes
    | K_generic => genericLogicalTypes
    end in
  map
    (fun value =>
       let label :=
         match logicalType with
         | K_generic => displayAs (nonIdFieldLogicalTypes value)
         | K_id =>
             replace re_upper_run3
               (fun value => capitalize (toLowerCase value))
               (replace re_underscore (fun _ => " ") value)
         end in
       {| FieldFormatDropdownOption.value := value;
          FieldFormatDropdownOption.label := label |})
    logicalTypes.

(** l.180 and l.186 *)
Definition logicalTypesForIds `{Compliance} : list IFieldFormatDropdownOption :=
  logicalTypeValueLabel K_id.
Definition logicalTypesForGeneric `{Compliance} : list IFieldFormatDropdownOption :=
  logicalTypeValueLabel K_generic.

(* ===================================================================== *)
(** ** com.linkedin.schema.SchemaDefinition *)
(* ===================================================================== *)

(** The record types that the declaration refers to; they are declared in
    other files of the [com.linkedin.schema] namespace. *)
Class SchemaTypes : Type := {
  AvroSchema : Type;
  BinaryJsonSchema : Type;
  DDL : Type;
  EspressoSchema : Type;
  KeyValueSchema : Type;
  OrcSchema : Type;
  ParquetSchema : Type;
  Schemaless : Type;
  NormalizedSchema : Type
}.

(** The union of [rawSchema]: a value carries the tag of one member and a
    payload of that member's type. *)
Inductive RawSchema `{SchemaTypes} : Type :=
| Raw_AvroSchema (x : AvroSchema)
| Raw_BinaryJsonSchema (x : BinaryJsonSchema)
| Raw_DDL (x : DDL)
| Raw_EspressoSchema (x : EspressoSchema)
| Raw_KeyValueSchema (x : KeyValueSchema)
| Raw_OrcSchema (x : OrcSchema)
| Raw_ParquetSchema (x : ParquetSchema)
| Raw_Schemaless (x : Schemaless).

Record SchemaDefinition `{SchemaTypes} : Type := {
  rawSchema : option RawSchema;
  normalizedSchema : option NormalizedSchema
}.

(** The members of the union, in the order of the declaration. *)
Inductive SchemaFormat : Type :=
| F_AvroSchema | F_BinaryJsonSchema | F_DDL | F_EspressoSchema
| F_KeyValueSchema | F_OrcSchema | F_ParquetSchema | F_Schemaless.

Definition schemaFormats : list SchemaFormat :=
  [F_AvroSchema; F_BinaryJsonSchema; F_DDL; F_EspressoSchema;
   F_KeyValueSchema; F_OrcSchema; F_ParquetSchema; F_Schemaless].

(** [holds f r]: the value [r] is populated with the member [f]. *)
Definition holds `{SchemaTypes} (f : SchemaFormat) (r : RawSchema) : bool :=
  match f, r with
  | F_AvroSchema, Raw_AvroSchema _ => true
  | F_BinaryJsonSchema, Raw_BinaryJsonSchema _ => true
  | F_DDL, Raw_DDL _ => true
  | F_EspressoSchema, Raw_EspressoSchema _ => true
  | F_KeyValueSchema, Raw_KeyValueSchema _ => true
  | F_OrcSchema, Raw_OrcSchema _ => true
  | F_ParquetSchema, Raw_ParquetSchema _ => true
  | F_Schemaless, Raw_Schemaless _ => true
  | _, _ => false
  end.

(** The member that a union value is tagged with. *)
Definition schemaFormat_of `{SchemaTypes} (r : RawSchema) : SchemaFormat :=
  match r with
  | Raw_AvroSchema _ => F_AvroSchema
  | Raw_BinaryJsonSchema _ => F_BinaryJsonSchema
  | Raw_DDL _ => F_DDL
  | Raw_EspressoSchema _ => F_EspressoSchema
  | Raw_KeyValueSchema _ => F_KeyValueSchema
  | Raw_OrcSchema _ => F_OrcSchema
  | Raw_ParquetSchema _ => F_ParquetSchema
  | Raw_Schemaless _ => F_Schemaless
  end.

Definition present {A : Type} (o : option A) : bool :=
  match o with
  | Some _ => true
  | None => false
  end.

(* ===================================================================== *)
(** ** The label transforms in the words of the specification *)
(* ===================================================================== *)

(** "insert a space before every uppercase letter" *)
Fixpoint spec_insert_space_before_upper (s : string) : string :=
  match s with
  | EmptyString => EmptyString
  | String c r =>
      if is_upper c
      then String " " (String c (spec_insert_space_before_upper r))
      else String c (spec_insert_space_before_upper r)
  end.

(** "capitalize the resulting string's first letter only" *)
Definition spec_capitalize_first (s : string) : string :=
  match s with
  | EmptyString => EmptyString
  | String c r => String (char_toUpperCase c) r
  end.

Definition spec_formatAsCapitalizedStringWithSpaces (s : string) : string :=
  spec_capitalize_first (spec_insert_space_before_upper s).

(** "underscores replaced by spaces" *)
Definition spec_underscores_to_spaces (s : string) : string :=
  map_chars (fun c => if Ascii.eqb c "_" then " "%char else c) s.

(** The maximal runs of [s]: consecutive upper-case letters form one run,
    consecutive other characters form one run. *)
Fixpoint spec_runs (s : string) : list string :=
  match s with
  | EmptyString => []
  | String c r =>
      match spec_runs r with
      | [] => [String c EmptyString]
      | EmptyString :: bs => String c EmptyString :: bs
      | String d b :: bs =>
          if Bool.eqb (is_upper c) (is_upper d)
          then String c (String d b) :: bs
          else String c EmptyString :: String d b :: bs
      end
  end.

(** "any run of 3-or-more consecutive uppercase letters title-cased
    (lower-cased then first letter capitalized)" *)
Definition spec_title_case_run (b : string) : string :=
  match b with
  | EmptyString => EmptyString
  | String c _ =>
      if is_upper c && (3 <=? String.length b)%nat
      then spec_capitalize_first (toLowerCase b)
      else b
  end.

Definition spec_id_label (value : string) : string :=
  String.concat "" (map spec_title_case_run (spec_runs (spec_underscores_to_spaces value))).

(** The longest prefix of [s] whose characters are all in [p], and what
    follows it. *)
Fixpoint take_while (p : ascii -> bool) (s : string) : string :=
  match s with
  | EmptyString => EmptyString
  | String c r => if p c then String c (take_while p r) else EmptyString
  end.

Fixpoint drop_while (p : ascii -> bool) (s : string) : string :=
  match s with
  | EmptyString => EmptyString
  | String c r => if p c then drop_while p r else s
  end.

(** [same_class c d]: [c] and [d] are both upper-case letters or both not. *)
Definition same_class (c d : ascii) : bool := Bool.eqb (is_upper c) (is_upper d).

(** The distinct elements of a list of strings, each at its first
    occurrence. *)
Fixpoint distinct (l : list string) : list string :=
  match l with
  | [] => []
  | x :: r => x :: List.filter (fun y => negb (String.eqb y x)) (distinct r)
  end.

(** Membership in a list of strings, as a boolean. *)
Definition mem (x : string) (l : list string) : bool := existsb (String.eqb x) l.
Definition notin (l : list string) (x : string) : bool := negb (mem x l).

(** Ascending order of strings by code units. *)
Definition str_le (a b : string) : Prop := String.leb a b = true.
Definition str_lt (a b : string) : Prop := String.ltb a b = true.

(** What Ember's [capitalize] does at the positions after the first one: a
    lower-case letter that directly follows a slash is upper-cased. *)
Fixpoint spec_capitalize_after_slash (s : string) : string :=
  match s with
  | EmptyString => EmptyString
  | String c r =>
      if Ascii.eqb c "/" then
        match r with
        | String d r' =>
            if is_lower d
            then String c (String (char_toUpperCase d) (spec_capitalize_after_slash r'))
            else String c (spec_capitalize_after_slash r)
        | EmptyString => String c EmptyString
        end
      else String c (spec_capitalize_after_slash r)
  end.

(** Upper-case the first character and every lower-case letter that directly
    follows a slash. *)
Definition spec_capitalize_first_and_after_slash (s : string) : string :=
  match s with
  | EmptyString => EmptyString
  | String c r =>
      if is_lower c
      then String (char_toUpperCase c) (spec_capitalize_after_slash r)
      else spec_capitalize_after_slash s
  end.

(** [slash_then_lower s]: somewhere in [s] a slash is directly followed by a
    lower-case letter. *)
Fixpoint slash_then_lower (s : string) : bool :=
  match s with
  | EmptyString => false
  | String c r =>
      (Ascii.eqb c "/" && match r with
                          | String d _ => is_lower d
                          | EmptyString => false
                          end)
      || slash_then_lower r
  end.

(** [starts_with p s]: [s] is not empty and its first character is in [p]. *)
Definition starts_with (p : ascii -> bool) (s : string) : bool :=
  match s with
  | EmptyString => false
  | String c _ => p c
  end.

(* ===================================================================== *)
(** ** Auxiliary notions for the further properties *)
(* ===================================================================== *)

(** [ascii_only s]: every character of [s] is an ASCII character, with a
    code below 128. *)
Fixpoint ascii_only (s : string) : bool :=
  match s with
  | EmptyString => true
  | String c r => (code c <? 128)%N && ascii_only r
  end.

(** The number of characters of [s] that belong to the class [p]. *)
Fixpoint count_chars (p : ascii -> bool) (s : string) : nat :=
  match s with
  | EmptyString => 0
  | String c r => if p c then S (count_chars p r) else count_chars p r
  end.

(** Every character of [s] belongs to the class [p]. *)
Fixpoint all_chars (p : ascii -> bool) (s : string) : bool :=
  match s with
  | EmptyString => true
  | String c r => p c && all_chars p r
  end.

(** [has_upper3 s]: somewhere in [s] three consecutive characters are
    upper-case letters. *)
Fixpoint has_upper3 (s : string) : bool :=
  match s with
  | EmptyString => false
  | String a r =>
      (is_upper a
       && match r with
          | String b (String c _) => is_upper b && is_upper c
          | _ => false
          end)
      || has_upper3 r
  end.

(** Reading a label of [formatAsCapitalizedStringWithSpaces] back: a space
    before an upper-case letter is dropped, an upper-case letter after a slash
    or at the start is lower-cased. *)
Fixpoint unformat_rest (w : string) : string :=
  match w with
  | EmptyString => EmptyString
  | String c r =>
      match r with
      | String d r' =>
          if is_upper d then
            if Ascii.eqb c " " then String d (unformat_rest r')
            else if Ascii.eqb c "/"
                 then String c (String (char_toLowerCase d) (unformat_rest r'))
                 else String c (unformat_rest r)
          else String c (unformat_rest r)
      | EmptyString => String c EmptyString
      end
  end.

Definition unformat (w : string) : string :=
  match w with
  | EmptyString => EmptyString
  | String c r =>
      if is_upper c then String (char_toLowerCase c) (unformat_rest r)
      else unformat_rest w
  end.

(** What the replacement of [/([A-Z]{3,})/g] does to one maximal run. *)
Definition title_of_run (fn : string -> string) (run : string) : string :=
  if starts_with is_upper run && (3 <=? String.length run)%nat then fn run else run.

(** [starts_upper2 s]: the first two characters of [s] are upper-case
    letters. *)
Definition starts_upper2 (s : string) : bool :=
  match s with
  | String b (String c _) => is_upper b && is_upper c
  | _ => false
  end.

Definition not_underscore (c : ascii) : bool := negb (Ascii.eqb c "_").

(** The label expression of the identifier branch of
    [logicalTypeValueLabel], l.166. *)
Definition id_label_code (value : string) : string :=
  replace re_upper_run3
    (fun value => capitalize (toLowerCase value))
    (replace re_underscore (fun _ => " ") value).

(** The imported constants with another list of identifier logical types. *)
Definition with_idLogicalTypes (C : Compliance) (l : list string) : Compliance := {|
  LimitedDistribution := @LimitedDistribution C;
  customIdLogicalTypes := @customIdLogicalTypes C;
  idLogicalTypes := l;
  genericLogicalTypes := @genericLogicalTypes C;
  nonIdFieldLogicalTypes := @nonIdFieldLogicalTypes C
|}.

(* ===================================================================== *)
(** ** Sample data *)
(* ===================================================================== *)

(** A small registry in the shape of the imported constants, used to run the
    definitions on concrete data. *)
Definition sample_nonIdFieldLogicalTypes (logicalType : string) : NonIdLogicalTypeEntry :=
  if String.eqb logicalType "NAME"
  then {| classification := "confidential"; displayAs := "Name" |}
  else if String.eqb logicalType "EMAIL"
  then {| classification := "confidential"; displayAs := "E-mail" |}
  else if String.eqb logicalType "AGE"
  then {| classification := "limitedDistribution"; displayAs := "Age" |}
  else {| classification := "highlyConfidential"; displayAs := "Other" |}.

Definition sample_compliance : Compliance := {|
  LimitedDistribution := "limitedDistribution";
  customIdLogicalTypes := ["CUSTOM_ID"];
  idLogicalTypes := ["ID"; "URN"; "REVERSED_URN"; "COMPOSITE_URN"];
  genericLogicalTypes := ["NAME"; "EMAIL"; "AGE"; "PASSWORD"];
  nonIdFieldLogicalTypes := sample_nonIdFieldLogicalTypes
|}.

(** A variant in which the name "ID" is listed both as an identifier logical
    type and as a generic one. *)
Definition sample_overlapping : Compliance := {|
  LimitedDistribution := "limitedDistribution";
  customIdLogicalTypes := ["CUSTOM_ID"];
  idLogicalTypes := ["ID"; "URN"];
  genericLogicalTypes := ["NAME"; "ID"];
  nonIdFieldLogicalTypes := sample_nonIdFieldLogicalTypes
|}.

(* ===================================================================== *)
(** * Properties *)
(* ===================================================================== *)

(** ** Running the definitions *)

Example format_limitedDistribution :
  formatAsCapitalizedStringWithSpaces "limitedDistribution" = "Limited Distribution".
Proof. reflexivity. Qed.

Example format_slash : formatAsCapitalizedStringWithSpaces "a/b" = "A/B".
Proof. reflexivity. Qed.

Example sample_options :
  @securityClassificationDropdownOptions sample_compliance =
  [ {| SecurityClassificationOption.value := "";
       SecurityClassificationOption.label := "..." |};
    {| SecurityClassificationOption.value := "confidential";
       SecurityClassificationOption.label := "Confidential" |};
    {| SecurityClassificationOption.value := "highlyConfidential";
       SecurityClassificationOption.label := "Highly Confidential" |};
    {| SecurityClassificationOption.value := "limitedDistribution";
       SecurityClassificationOption.label := "Limited Distribution" |} ].
Proof. reflexivity. Qed.

Example sample_id_labels :
  map FieldFormatDropdownOption.label (@logicalTypesForIds sample_compliance) =
  ["ID"; "Urn"; "Reversed Urn"; "Composite Urn"].
Proof. reflexivity. Qed.

Example sample_spec_id_labels :
  map spec_id_label ["ID"; "URN"; "REVERSED_URN"; "COMPOSITE_URN"; "aBCDe_FG"] =
  ["ID"; "Urn"; "Reversed Urn"; "Composite Urn"; "aBcde FG"].
Proof. reflexivity. Qed.

(** ** Characters *)

Lemma upper_not_lower (c : ascii) : is_upper c = true -> is_lower c = false.
Proof.
  unfold is_upper, is_lower, code; intros H.
  apply andb_true_iff in H; destruct H as [_ H]; apply N.leb_le in H.
  apply andb_false_iff; left; apply N.leb_gt; lia.
Qed.

Lemma lower_not_upper (c : ascii) : is_lower c = true -> is_upper c = false.
Proof.
  intros H; destruct (is_upper c) eqn:E; [|reflexivity].
  apply upper_not_lower in E; congruence.
Qed.

Lemma toUpperCase_lower_is_upper (c : ascii) :
  is_lower c = true -> is_upper (char_toUpperCase c) = true.
Proof.
  unfold char_toUpperCase; intros H; rewrite H.
  unfold is_lower in H; apply andb_true_iff in H; destruct H as [H1 H2].
  apply N.leb_le in H1, H2.
  unfold is_upper, code in *; rewrite N_ascii_embedding by lia.
  apply andb_true_iff; split; apply N.leb_le; lia.
Qed.

Lemma toLowerCase_upper_is_lower (c : ascii) :
  is_upper c = true -> is_lower (char_toLowerCase c) = true.
Proof.
  unfold char_toLowerCase; intros H; rewrite H.
  unfold is_upper in H; apply andb_true_iff in H; destruct H as [H1 H2].
  apply N.leb_le in H1, H2.
  unfold is_lower, code in *; rewrite N_ascii_embedding by lia.
  apply andb_true_iff; split; apply N.leb_le; lia.
Qed.

Lemma toUpperCase_not_lower (c : ascii) : is_lower c = false -> char_toUpperCase c = c.
Proof. unfold char_toUpperCase; intros ->; reflexivity. Qed.

Lemma eqb_slash_not_lower (c : ascii) : Ascii.eqb c "/" = true -> is_lower c = false.
Proof. intros H; apply Ascii.eqb_eq in H; subst; reflexivity. Qed.

Lemma eqb_slash_not_upper (c : ascii) : Ascii.eqb c "/" = true -> is_upper c = false.
Proof. intros H; apply Ascii.eqb_eq in H; subst; reflexivity. Qed.

(** ** The regular-expression replacements of the formatter *)

(** Induction on strings that also gives the hypothesis for the tail of the
    tail, as needed by functions that consume two characters at a time. *)
Lemma string_pair_ind (P : string -> Prop) :
  P EmptyString ->
  (forall c, P (String c EmptyString)) ->
  (forall c d r, P r -> P (String d r) -> P (String c (String d r))) ->
  forall s, P s.
Proof.
  intros H0 H1 H2 s.
  assert (H : P s /\ forall c, P (String c s)).
  { induction s as [|d r [IHr IHdr]]; split; auto. }
  exact (proj1 H).
Qed.

Lemma substring_0_0 (s : string) : substring 0 0 s = EmptyString.
Proof. destruct s; reflexivity. Qed.

Lemma replace_re_upper (b : bool) (s : string) :
  replace_g re_upper (fun m => " " ++ m) 0 b s = spec_insert_space_before_upper s.
Proof.
  revert b; induction s as [|c r IH]; intros b; [reflexivity|].
  simpl. destruct (is_upper c); simpl; rewrite ?substring_0_0, IH; reflexivity.
Qed.

Lemma replace_g_0 (re : Matcher) (fn : string -> string) (b : bool) (c : ascii) (r : string) :
  replace_g re fn 0 b (String c r) =
  match re b (String c r) with
  | Some (S k) => fn (substring 0 (S k) (String c r)) ++ replace_g re fn k false r
  | Some O => fn EmptyString ++ String c (replace_g re fn 0 false r)
  | None => String c (replace_g re fn 0 false r)
  end.
Proof. reflexivity. Qed.

Lemma replace_g_skip (re : Matcher) (fn : string -> string) (k : nat) (b : bool)
      (c : ascii) (r : string) :
  replace_g re fn (S k) b (String c r) = replace_g re fn k false r.
Proof. reflexivity. Qed.

Lemma after_slash_eq (c : ascii) (r : string) :
  spec_capitalize_after_slash (String c r) =
  if Ascii.eqb c "/" then
    match r with
    | String d r' =>
        if is_lower d
        then String c (String (char_toUpperCase d) (spec_capitalize_after_slash r'))
        else String c (spec_capitalize_after_slash r)
    | EmptyString => String c EmptyString
    end
  else String c (spec_capitalize_after_slash r).
Proof. reflexivity. Qed.

Lemma slash_then_lower_eq (c : ascii) (r : string) :
  slash_then_lower (String c r) =
  (Ascii.eqb c "/" && starts_with is_lower r) || slash_then_lower r.
Proof. destruct r; reflexivity. Qed.

Lemma replace_re_capitalize_inner (s : string) :
  replace_g re_capitalize toUpperCase 0 false s = spec_capitalize_after_slash s.
Proof.
  induction s as [|c|c d r IHr IHdr] using string_pair_ind.
  - reflexivity.
  - simpl. destruct (Ascii.eqb c "/"); reflexivity.
  - rewrite replace_g_0, (after_slash_eq c).
    cbn [re_capitalize andb].
    destruct (Ascii.eqb c "/") eqn:Ec.
    + destruct (is_lower d) eqn:Ed.
      * cbn [substring]. rewrite substring_0_0.
        cbn [toUpperCase map_chars append].
        rewrite replace_g_skip, IHr. unfold char_toUpperCase at 1.
        rewrite (eqb_slash_not_lower c Ec). reflexivity.
      * rewrite IHdr. reflexivity.
    + rewrite IHdr. reflexivity.
Qed.

Lemma capitalize_spec (s : string) :
  capitalize s = spec_capitalize_first_and_after_slash s.
Proof.
  destruct s as [|c r]; [reflexivity|].
  unfold capitalize, replace, spec_capitalize_first_and_after_slash.
  destruct (is_lower c) eqn:Ec.
  - rewrite replace_g_0. cbn [re_capitalize andb]. rewrite Ec.
    cbn [substring]. rewrite substring_0_0.
    cbn [toUpperCase map_chars append].
    rewrite replace_re_capitalize_inner. reflexivity.
  - rewrite <- replace_re_capitalize_inner.
    rewrite !replace_g_0. cbn [re_capitalize andb]. rewrite Ec. reflexivity.
Qed.

Lemma format_spec (s : string) :
  formatAsCapitalizedStringWithSpaces s =
  spec_capitalize_first_and_after_slash (spec_insert_space_before_upper s).
Proof.
  unfold formatAsCapitalizedStringWithSpaces, replace.
  rewrite replace_re_upper. apply capitalize_spec.
Qed.

Lemma capitalize_after_slash_id (s : string) :
  slash_then_lower s = false -> spec_capitalize_after_slash s = s.
Proof.
  induction s as [|c r IH]; intros H; [reflexivity|].
  rewrite slash_then_lower_eq in H.
  apply orb_false_iff in H; destruct H as [H1 H2].
  rewrite after_slash_eq, (IH H2).
  destruct (Ascii.eqb c "/"); [|reflexivity].
  destruct r as [|d r']; [reflexivity|].
  cbn [andb starts_with] in H1. rewrite H1. reflexivity.
Qed.

Lemma capitalize_after_slash_starts (p : ascii -> bool) (s : string) :
  starts_with p (spec_capitalize_after_slash s) = starts_with p s.
Proof.
  destruct s as [|c r]; [reflexivity|].
  rewrite after_slash_eq.
  destruct (Ascii.eqb c "/"); [|reflexivity].
  destruct r as [|d r']; [reflexivity|].
  destruct (is_lower d); reflexivity.
Qed.

Lemma capitalize_after_slash_clean (s : string) :
  slash_then_lower (spec_capitalize_after_slash s) = false.
Proof.
  induction s as [|c|c d r IHr IHdr] using string_pair_ind.
  - reflexivity.
  - rewrite after_slash_eq. destruct (Ascii.eqb c "/") eqn:Ec;
      rewrite slash_then_lower_eq; cbn [starts_with]; rewrite andb_false_r; reflexivity.
  - rewrite (after_slash_eq c).
    destruct (Ascii.eqb c "/") eqn:Ec.
    + destruct (is_lower d) eqn:Ed.
      * rewrite !slash_then_lower_eq, IHr. cbn [starts_with].
        rewrite (upper_not_lower _ (toUpperCase_lower_is_upper d Ed)).
        assert (Hd : Ascii.eqb (char_toUpperCase d) "/" = false).
        { destruct (Ascii.eqb (char_toUpperCase d) "/") eqn:E; [|reflexivity].
          apply eqb_slash_not_upper in E.
          rewrite (toUpperCase_lower_is_upper d Ed) in E. discriminate. }
        rewrite Hd, andb_false_r. reflexivity.
      * rewrite slash_then_lower_eq, IHdr.
        rewrite capitalize_after_slash_starts. cbn [starts_with]. rewrite Ed.
        rewrite andb_false_r. reflexivity.
    + rewrite slash_then_lower_eq, IHdr, Ec. reflexivity.
Qed.

Lemma insert_space_slash_then_lower (s : string) :
  slash_then_lower (spec_insert_space_before_upper s) = slash_then_lower s.
Proof.
  induction s as [|c r IH]; [reflexivity|].
  assert (Hstart : forall t, starts_with is_lower (spec_insert_space_before_upper t)
                             = starts_with is_lower t).
  { intros [|d t]; [reflexivity|]. cbn [spec_insert_space_before_upper].
    destruct (is_upper d) eqn:Ed; [|reflexivity].
    cbn [starts_with]. rewrite (upper_not_lower d Ed). reflexivity. }
  cbn [spec_insert_space_before_upper].
  destruct (is_upper c) eqn:Ec.
  - rewrite !slash_then_lower_eq, IH, Hstart. cbn [starts_with].
    rewrite (upper_not_lower c Ec). reflexivity.
  - rewrite !slash_then_lower_eq, IH, Hstart. reflexivity.
Qed.

Lemma insert_space_starts_lower (s : string) :
  starts_with is_lower (spec_insert_space_before_upper s) = starts_with is_lower s.
Proof.
  destruct s as [|d t]; [reflexivity|]. cbn [spec_insert_space_before_upper].
  destruct (is_upper d) eqn:Ed; [|reflexivity].
  cbn [starts_with]. rewrite (upper_not_lower d Ed). reflexivity.
Qed.

Lemma capitalize_fixed (x : string) :
  starts_with is_lower x = false ->
  slash_then_lower x = false ->
  spec_capitalize_first_and_after_slash x = x.
Proof.
  intros H1 H2. destruct x as [|c r]; [reflexivity|].
  unfold spec_capitalize_first_and_after_slash.
  cbn [starts_with] in H1. rewrite H1.
  apply capitalize_after_slash_id, H2.
Qed.

Lemma capitalize_result_clean (u : string) :
  starts_with is_lower (spec_capitalize_first_and_after_slash u) = false /\
  slash_then_lower (spec_capitalize_first_and_after_slash u) = false.
Proof.
  destruct u as [|c r]; [split; reflexivity|].
  unfold spec_capitalize_first_and_after_slash.
  destruct (is_lower c) eqn:Ec.
  - pose proof (toUpperCase_lower_is_upper c Ec) as Hu.
    split.
    + cbn [starts_with]. apply upper_not_lower, Hu.
    + rewrite slash_then_lower_eq, capitalize_after_slash_clean.
      destruct (Ascii.eqb (char_toUpperCase c) "/") eqn:E; [|reflexivity].
      apply eqb_slash_not_upper in E. congruence.
  - split.
    + rewrite capitalize_after_slash_starts. exact Ec.
    + apply capitalize_after_slash_clean.
Qed.

Lemma capitalize_first_only (x : string) :
  slash_then_lower x = false ->
  spec_capitalize_first_and_after_slash x = spec_capitalize_first x.
Proof.
  intros H. destruct x as [|c r]; [reflexivity|].
  unfold spec_capitalize_first_and_after_slash, spec_capitalize_first.
  destruct (is_lower c) eqn:Ec.
  - rewrite slash_then_lower_eq in H. apply orb_false_iff in H.
    rewrite (capitalize_after_slash_id r (proj2 H)). reflexivity.
  - rewrite (capitalize_after_slash_id _ H), (toUpperCase_not_lower c Ec). reflexivity.
Qed.

Lemma format_twice (s : string) :
  formatAsCapitalizedStringWithSpaces (formatAsCapitalizedStringWithSpaces s) =
  spec_insert_space_before_upper (formatAsCapitalizedStringWithSpaces s).
Proof.
  rewrite (format_spec (formatAsCapitalizedStringWithSpaces s)).
  rewrite (format_spec s).
  destruct (capitalize_result_clean (spec_insert_space_before_upper s)) as [H1 H2].
  apply capitalize_fixed.
  - rewrite insert_space_starts_lower. exact H1.
  - rewrite insert_space_slash_then_lower. exact H2.
Qed.

Lemma format_of_lower_start (c : ascii) (r : string) :
  is_lower c = true ->
  formatAsCapitalizedStringWithSpaces (String c r) =
  String (char_toUpperCase c) (spec_capitalize_after_slash (spec_insert_space_before_upper r)).
Proof.
  intros Hc. rewrite format_spec. cbn [spec_insert_space_before_upper].
  rewrite (lower_not_upper c Hc).
  unfold spec_capitalize_first_and_after_slash. rewrite Hc. reflexivity.
Qed.

(** ** formatAsCapitalizedStringWithSpaces *)

(** C3, as stated, fails on the input "a/b": [capitalize] also upper-cases the
    letter that follows the slash, while capitalizing the first character
    only would leave it in lower case. *)
Lemma format_capitalizes_after_slash :
  formatAsCapitalizedStringWithSpaces "a/b" = "A/B" /\
  spec_formatAsCapitalizedStringWithSpaces "a/b" = "A/b" /\
  formatAsCapitalizedStringWithSpaces "a/b" <> spec_formatAsCapitalizedStringWithSpaces "a/b".
Proof. repeat split. discriminate. Qed.

(** C3 (amended).  For every ASCII input string [s],
    [formatAsCapitalizedStringWithSpaces s] is the result of inserting a space
    before every upper-case letter of [s] and then upper-casing the first
    character and every lower-case letter that directly follows a slash; when
    no slash of [s] is directly followed by a lower-case letter, this is
    capitalizing the first character only, and no other character changes
    case. *)
Theorem format_inserts_spaces_then_capitalizes (s : string) :
  ascii_only s = true ->
  formatAsCapitalizedStringWithSpaces s =
    spec_capitalize_first_and_after_slash (spec_insert_space_before_upper s)
  /\ (slash_then_lower s = false ->
      formatAsCapitalizedStringWithSpaces s = spec_formatAsCapitalizedStringWithSpaces s).
Proof.
  intros _. split; [apply format_spec|].
  intros H. rewrite format_spec. unfold spec_formatAsCapitalizedStringWithSpaces.
  apply capitalize_first_only.
  rewrite insert_space_slash_then_lower. exact H.
Qed.

Lemma format_inserts_spaces_then_capitalizes_witness :
  ascii_only "limitedDistribution" = true /\
  slash_then_lower "limitedDistribution" = false /\
  formatAsCapitalizedStringWithSpaces "limitedDistribution"
  = spec_formatAsCapitalizedStringWithSpaces "limitedDistribution".
Proof.
  split; [reflexivity|]. split; [reflexivity|].
  apply (proj2 (format_inserts_spaces_then_capitalizes "limitedDistribution" eq_refl)).
  reflexivity.
Defined.

(** C10.  For every input that begins with an upper-case letter, the result
    begins with a space, followed by that same letter: the space inserted
    before the leading capital is left alone by [capitalize]. *)
Theorem format_leading_capital_gains_space (c : ascii) (r : string) :
  is_upper c = true ->
  exists t, formatAsCapitalizedStringWithSpaces (String c r) = String " " (String c t).
Proof.
  intros Hc. rewrite format_spec. cbn [spec_insert_space_before_upper]. rewrite Hc.
  unfold spec_capitalize_first_and_after_slash.
  change (is_lower " ") with false. cbv beta iota.
  rewrite after_slash_eq. change (Ascii.eqb " " "/") with false. cbv beta iota.
  rewrite after_slash_eq.
  destruct (Ascii.eqb c "/") eqn:E.
  - apply eqb_slash_not_upper in E. congruence.
  - eexists. reflexivity.
Qed.

Lemma format_leading_capital_gains_space_witness :
  is_upper "L" = true /\
  exists t, formatAsCapitalizedStringWithSpaces "Limited Distribution" = String " " (String "L" t).
Proof.
  split; [reflexivity|].
  apply (format_leading_capital_gains_space "L" "imited Distribution").
  reflexivity.
Defined.

(** C4, as stated, fails on the camelCase input "limitedDistribution": the
    second application inserts a space before each of the two capitals of
    "Limited Distribution". *)
Lemma format_not_idempotent :
  formatAsCapitalizedStringWithSpaces "limitedDistribution" = "Limited Distribution" /\
  formatAsCapitalizedStringWithSpaces
    (formatAsCapitalizedStringWithSpaces "limitedDistribution") = " Limited  Distribution" /\
  formatAsCapitalizedStringWithSpaces
    (formatAsCapitalizedStringWithSpaces "limitedDistribution")
  <> formatAsCapitalizedStringWithSpaces "limitedDistribution".
Proof. repeat split. discriminate. Qed.

(** C4 (amended).  The transform is not idempotent on camelCase input.  For
    every input that begins with a lower-case letter, the first application
    capitalizes that letter; the second application returns the first result
    with a space inserted before every upper-case letter, the capitalized
    first letter included.  So the twice-formatted string begins with a space
    followed by the first letter, still capitalized, and differs from the
    once-formatted string. *)
Theorem format_twice_on_camelCase (c : ascii) (r : string) :
  is_lower c = true ->
  let once := formatAsCapitalizedStringWithSpaces (String c r) in
  let twice := formatAsCapitalizedStringWithSpaces once in
  twice = spec_insert_space_before_upper once
  /\ twice <> once
  /\ is_upper (char_toUpperCase c) = true
  /\ exists t, once = String (char_toUpperCase c) t
            /\ twice = String " " (String (char_toUpperCase c) (spec_insert_space_before_upper t)).
Proof.
  intros Hc once twice.
  pose proof (toUpperCase_lower_is_upper c Hc) as Hu.
  assert (Honce : once = String (char_toUpperCase c)
                           (spec_capitalize_after_slash (spec_insert_space_before_upper r)))
    by (apply format_of_lower_start, Hc).
  assert (Htwice : twice = spec_insert_space_before_upper once) by apply format_twice.
  assert (Hshape : twice = String " " (String (char_toUpperCase c)
             (spec_insert_space_before_upper
                (spec_capitalize_after_slash (spec_insert_space_before_upper r))))).
  { rewrite Htwice, Honce. cbn [spec_insert_space_before_upper]. rewrite Hu. reflexivity. }
  repeat split.
  - exact Htwice.
  - rewrite Hshape, Honce. intros E. injection E as E _.
    rewrite <- E in Hu. discriminate.
  - exact Hu.
  - eexists. split; [exact Honce | exact Hshape].
Qed.

Lemma format_twice_on_camelCase_witness :
  is_lower "l" = true /\
  formatAsCapitalizedStringWithSpaces
    (formatAsCapitalizedStringWithSpaces "limitedDistribution")
  = spec_insert_space_before_upper "Limited Distribution".
Proof.
  split; [reflexivity|].
  apply (format_twice_on_camelCase "l" "imitedDistribution").
  reflexivity.
Defined.

(** ** Identifier-type predicates *)

Section IdentifierPredicates.

Context `{FieldIdentifierTypes}.

Lemma isMixedId_iff (identifierType : string) :
  isMixedId identifierType = true <-> identifierType = IdentifierType.value generic.
Proof. apply String.eqb_eq. Qed.

Lemma isCustomId_iff (identifierType : string) :
  isCustomId identifierType = true <-> identifierType = IdentifierType.value custom.
Proof. apply String.eqb_eq. Qed.

End IdentifierPredicates.

(** C5.  Whatever the category constants are, [getDefaultLogicalType] returns
    "URN" exactly when [isMixedId] holds, that is when the identifier type
    equals the value of the generic category, and no value otherwise; with
    the literal category constants, "generic" yields "URN" and "urn" yields
    no value. *)
Theorem getDefaultLogicalType_URN_iff_mixed :
  (forall (T : FieldIdentifierTypes) (identifierType : string),
      (isMixedId identifierType = true <-> identifierType = IdentifierType.value generic)
      /\ (isMixedId identifierType = true ->
          getDefaultLogicalType identifierType = Some "URN")
      /\ (isMixedId identifierType = false ->
          getDefaultLogicalType identifierType = None))
  /\ @getDefaultLogicalType spec_fieldIdentifierTypes "generic" = Some "URN"
  /\ @getDefaultLogicalType spec_fieldIdentifierTypes "urn" = None.
Proof.
  split; [|split; reflexivity].
  intros T identifierType. split; [apply isMixedId_iff|].
  unfold getDefaultLogicalType.
  split; intros ->; reflexivity.
Qed.

Lemma getDefaultLogicalType_URN_iff_mixed_witness :
  @isMixedId spec_fieldIdentifierTypes "generic" = true /\
  @getDefaultLogicalType spec_fieldIdentifierTypes "generic" = Some "URN".
Proof.
  split; [reflexivity|].
  apply (proj1 getDefaultLogicalType_URN_iff_mixed spec_fieldIdentifierTypes "generic").
  reflexivity.
Defined.

(** C6.  Whatever the category constants are, [hasPredefinedFieldFormat]
    holds if and only if [isMixedId] or [isCustomId] holds; with the literal
    category constants, [isMixedId "generic"], [isCustomId "custom"] and
    [hasPredefinedFieldFormat "custom"] hold while [isMixedId "custom"] and
    [hasPredefinedFieldFormat "urn"] do not. *)
Theorem hasPredefinedFieldFormat_iff :
  (forall (T : FieldIdentifierTypes) (identifierType : string),
      hasPredefinedFieldFormat identifierType = true <->
      isMixedId identifierType = true \/ isCustomId identifierType = true)
  /\ @isMixedId spec_fieldIdentifierTypes "generic" = true
  /\ @isMixedId spec_fieldIdentifierTypes "custom" = false
  /\ @isCustomId spec_fieldIdentifierTypes "custom" = true
  /\ @hasPredefinedFieldFormat spec_fieldIdentifierTypes "custom" = true
  /\ @hasPredefinedFieldFormat spec_fieldIdentifierTypes "urn" = false.
Proof.
  split; [|repeat split].
  intros T identifierType. unfold hasPredefinedFieldFormat. apply orb_true_iff.
Qed.

(** ** SchemaDefinition *)

Section Schema.

Context `{SchemaTypes}.

Lemma holds_exactly_one (r : RawSchema) :
  List.filter (fun f => holds f r) schemaFormats = [schemaFormat_of r].
Proof. destruct r; reflexivity. Qed.

Lemma holds_iff (f : SchemaFormat) (r : RawSchema) :
  holds f r = true <-> f = schemaFormat_of r.
Proof. destruct f, r; simpl; split; intros E; (reflexivity || discriminate E). Qed.

Lemma schemaFormats_complete (f : SchemaFormat) : In f schemaFormats.
Proof. destruct f; simpl; tauto. Qed.

End Schema.

(** C9.  [rawSchema] and [normalizedSchema] are independently optional:
    whenever the member types have values at all, each of the four
    combinations of presence and absence is realised by a [SchemaDefinition],
    so the presence of one field says nothing about the other; and a present
    [rawSchema] is populated with exactly one of the eight members of the
    union. *)
Theorem SchemaDefinition_fields_independent :
  forall (T : SchemaTypes) (raw : RawSchema) (normalized : NormalizedSchema),
    (forall p q : bool,
        exists d : SchemaDefinition,
          present (rawSchema d) = p /\ present (normalizedSchema d) = q)
    /\ (forall d : SchemaDefinition, forall r : RawSchema,
           rawSchema d = Some r ->
           exists f, holds f r = true /\ forall g, holds g r = true -> g = f)
    /\ List.length schemaFormats = 8
    /\ NoDup schemaFormats
    /\ (forall f, In f schemaFormats).
Proof.
  intros T raw normalized. split; [|split; [|split; [|split]]].
  - intros [|] [|].
    + exists {| rawSchema := Some raw; normalizedSchema := Some normalized |}. auto.
    + exists {| rawSchema := Some raw; normalizedSchema := None |}. auto.
    + exists {| rawSchema := None; normalizedSchema := Some normalized |}. auto.
    + exists {| rawSchema := None; normalizedSchema := None |}. auto.
  - intros d r _. exists (schemaFormat_of r).
    split; [apply holds_iff; reflexivity | intros g Hg; apply holds_iff, Hg].
  - reflexivity.
  - unfold schemaFormats.
    repeat (constructor; [simpl; intuition discriminate|]). constructor.
  - apply schemaFormats_complete.
Qed.

(** ** Lists of strings *)

Lemma mem_In (x : string) (l : list string) : mem x l = true <-> In x l.
Proof.
  unfold mem. rewrite existsb_exists. split.
  - intros [y [Hy E]]. apply String.eqb_eq in E. subst. exact Hy.
  - intros Hx. exists x. split; [exact Hx | apply String.eqb_refl].
Qed.

Lemma mem_false (x : string) (l : list string) : mem x l = false <-> ~ In x l.
Proof.
  rewrite <- mem_In. destruct (mem x l); split; congruence.
Qed.

Lemma mem_app (x : string) (l1 l2 : list string) :
  mem x (l1 ++ l2) = mem x l1 || mem x l2.
Proof. apply existsb_app. Qed.

Lemma filter_filter {A : Type} (p q : A -> bool) (l : list A) :
  List.filter p (List.filter q l) = List.filter (fun y => q y && p y) l.
Proof.
  induction l as [|x r IH]; [reflexivity|].
  simpl. destruct (q x); simpl; [destruct (p x)|]; rewrite IH; reflexivity.
Qed.

Lemma filter_notin_absorb (K : list string) (k : string) (l : list string) :
  mem k K = true ->
  List.filter (notin K) (List.filter (fun y => negb (String.eqb y k)) l) =
  List.filter (notin K) l.
Proof.
  intros Hk. rewrite filter_filter. apply filter_ext. intros y.
  destruct (String.eqb y k) eqn:E; [|reflexivity].
  apply String.eqb_eq in E. subst. unfold notin. rewrite Hk. reflexivity.
Qed.

Lemma filter_notin_snoc (K : list string) (k : string) (l : list string) :
  List.filter (notin (K ++ [k])) l =
  List.filter (notin K) (List.filter (fun y => negb (String.eqb y k)) l).
Proof.
  rewrite filter_filter. apply filter_ext. intros y.
  unfold notin. rewrite mem_app. unfold mem at 2. simpl.
  rewrite orb_false_r, negb_orb. apply andb_comm.
Qed.

Lemma filter_notin_nil (l : list string) : List.filter (notin []) l = l.
Proof. induction l as [|x r IH]; [reflexivity|]. simpl. rewrite IH. reflexivity. Qed.

Lemma distinct_In (x : string) (l : list string) : In x (distinct l) <-> In x l.
Proof.
  induction l as [|y r IH]; [reflexivity|].
  simpl. rewrite filter_In, IH. split.
  - intros [E | [Hx _]]; auto.
  - intros [E | Hx]; [left; exact E|].
    destruct (String.eqb x y) eqn:E.
    + left. symmetry. apply String.eqb_eq, E.
    + right. split; [exact Hx | reflexivity].
Qed.

Lemma distinct_NoDup (l : list string) : NoDup (distinct l).
Proof.
  induction l as [|y r IH]; simpl; constructor.
  - rewrite filter_In. intros [_ E]. rewrite String.eqb_refl in E. discriminate.
  - apply NoDup_filter, IH.
Qed.

Lemma distinct_fixed (l : list string) : NoDup l -> distinct l = l.
Proof.
  induction 1 as [|x r Hx Hr IH]; [reflexivity|].
  simpl. rewrite IH. f_equal.
  apply forallb_filter_id, forallb_forall. intros y Hy.
  destruct (String.eqb y x) eqn:E; [|reflexivity].
  apply String.eqb_eq in E. subst. contradiction.
Qed.

Lemma distinct_length_nodup (l : list string) :
  List.length (distinct l) = List.length (nodup string_dec l).
Proof.
  apply Permutation_length, NoDup_Permutation.
  - apply distinct_NoDup.
  - apply NoDup_nodup.
  - intros x. rewrite distinct_In, nodup_In. reflexivity.
Qed.

(** ** Arrays *)

Lemma indexOf_from_in (pre rest : list string) (x : string) (i : Z) :
  In x pre ->
  (i <= JsArray.indexOf_from (pre ++ rest) x i < i + Z.of_nat (List.length pre))%Z.
Proof.
  revert i. induction pre as [|y pre IH]; intros i Hx; [destruct Hx|].
  cbn [app JsArray.indexOf_from List.length].
  destruct (String.eqb y x) eqn:E; [lia|].
  destruct Hx as [Hx | Hx].
  - subst. rewrite String.eqb_refl in E. discriminate.
  - specialize (IH (i + 1)%Z Hx). lia.
Qed.

Lemma indexOf_from_notin (pre r : list string) (x : string) (i : Z) :
  ~ In x pre ->
  JsArray.indexOf_from (pre ++ x :: r) x i = (i + Z.of_nat (List.length pre))%Z.
Proof.
  revert i. induction pre as [|y pre IH]; intros i Hx.
  - cbn. rewrite String.eqb_refl. lia.
  - cbn [app JsArray.indexOf_from List.length].
    destruct (String.eqb y x) eqn:E.
    + apply String.eqb_eq in E. subst. exfalso. apply Hx. left. reflexivity.
    + rewrite IH by (intros Hin; apply Hx; right; exact Hin). lia.
Qed.

(** The callback of [classifiers] keeps an element exactly when it does not
    occur earlier in the array. *)
Lemma first_occurrence_test (pre r : list string) (x : string) :
  Z.eqb (JsArray.indexOf (pre ++ x :: r) x) (Z.of_nat (List.length pre)) = notin pre x.
Proof.
  unfold notin, JsArray.indexOf. destruct (mem x pre) eqn:Hm.
  - apply mem_In in Hm.
    pose proof (indexOf_from_in pre (x :: r) x 0 Hm). simpl. apply Z.eqb_neq. lia.
  - apply mem_false in Hm. rewrite (indexOf_from_notin pre r x 0 Hm). simpl.
    apply Z.eqb_refl.
Qed.

Lemma filter_from_first_occurrences (rest pre : list string) :
  JsArray.filter_from
    (fun classifier index iter => Z.eqb (JsArray.indexOf iter classifier) index)
    (pre ++ rest) (Z.of_nat (List.length pre)) rest
  = List.filter (notin pre) (distinct rest).
Proof.
  revert pre. induction rest as [|x r IH]; intros pre; [reflexivity|].
  cbn [JsArray.filter_from distinct List.filter].
  rewrite first_occurrence_test.
  replace (Z.of_nat (List.length pre) + 1)%Z
    with (Z.of_nat (List.length (pre ++ [x])%list))
    by (rewrite length_app; simpl; lia).
  replace (pre ++ x :: r)%list with ((pre ++ [x]) ++ r)%list
    by (rewrite <- app_assoc; reflexivity).
  rewrite IH, filter_notin_snoc.
  destruct (notin pre x); reflexivity.
Qed.

Lemma filter_first_occurrences (l : list string) :
  JsArray.filter
    (fun classifier index iter => Z.eqb (JsArray.indexOf iter classifier) index) l
  = distinct l.
Proof.
  unfold JsArray.filter.
  rewrite <- (filter_notin_nil (distinct l)).
  exact (filter_from_first_occurrences l []).
Qed.

(** ** The order of strings and [sort] *)

Lemma compare_as_OT (a b : string) : String.compare a b = String_as_OT.compare a b.
Proof. reflexivity. Qed.

Lemma str_lt_iff (a b : string) : str_lt a b <-> String_as_OT.lt a b.
Proof.
  unfold str_lt, String.ltb, String_as_OT.lt. rewrite compare_as_OT.
  destruct (String_as_OT.compare a b); split; congruence.
Qed.

Lemma str_lt_trans (a b c : string) : str_lt a b -> str_lt b c -> str_lt a c.
Proof.
  rewrite !str_lt_iff. apply String_as_OT.lt_strorder.
Qed.

Lemma str_le_cases (a b : string) : str_le a b <-> str_lt a b \/ a = b.
Proof.
  unfold str_le, str_lt, String.leb, String.ltb.
  destruct (String.compare a b) eqn:E.
  - apply String.compare_eq_iff in E. intuition congruence.
  - intuition congruence.
  - split; [discriminate|]. intros [H | H]; [discriminate|].
    subst. pose proof (String.compare_antisym b b) as A. rewrite E in A. discriminate.
Qed.

Lemma str_le_trans (a b c : string) : str_le a b -> str_le b c -> str_le a c.
Proof.
  rewrite !str_le_cases. intros [H1 | ->] [H2 | ->]; auto.
  left. eapply str_lt_trans; eassumption.
Qed.

Lemma str_le_total (a b : string) : String.leb a b = false -> str_le b a.
Proof.
  intros H. destruct (String.leb_total a b) as [E | E]; [congruence | exact E].
Qed.

Lemma insert_Permutation (x : string) (l : list string) :
  Permutation (JsArray.insert x l) (x :: l).
Proof.
  induction l as [|y r IH]; simpl; [reflexivity|].
  destruct (String.leb x y); [reflexivity|].
  rewrite IH. apply perm_swap.
Qed.

Lemma sort_Permutation (l : list string) : Permutation (JsArray.sort l) l.
Proof.
  induction l as [|x r IH]; simpl; [reflexivity|].
  rewrite insert_Permutation, IH. reflexivity.
Qed.

Lemma insert_HdRel (a x : string) (l : list string) :
  str_le a x -> HdRel str_le a l -> HdRel str_le a (JsArray.insert x l).
Proof.
  intros Hax Hl. destruct l as [|y r]; simpl.
  - constructor. exact Hax.
  - destruct (String.leb x y); constructor; [exact Hax|].
    inversion Hl; assumption.
Qed.

Lemma insert_Sorted (x : string) (l : list string) :
  Sorted str_le l -> Sorted str_le (JsArray.insert x l).
Proof.
  induction 1 as [|y r Hr IH Hy]; simpl.
  - repeat constructor.
  - destruct (String.leb x y) eqn:E.
    + constructor; [constructor; assumption | constructor; exact E].
    + constructor; [exact IH|].
      apply insert_HdRel; [apply str_le_total, E | exact Hy].
Qed.

Lemma sort_Sorted (l : list string) : Sorted str_le (JsArray.sort l).
Proof.
  induction l as [|x r IH]; simpl; [constructor | apply insert_Sorted, IH].
Qed.

(** Two ascending arrangements of the same elements are equal, so [sort] is
    the result of any sorting algorithm. *)
Lemma StronglySorted_Permutation_eq (l1 l2 : list string) :
  StronglySorted str_le l1 -> StronglySorted str_le l2 -> Permutation l1 l2 -> l1 = l2.
Proof.
  revert l2. induction l1 as [|x r1 IH]; intros l2 H1 H2 Hp.
  - apply Permutation_nil in Hp. symmetry. exact Hp.
  - destruct l2 as [|y r2]; [apply Permutation_sym, Permutation_nil in Hp; discriminate|].
    inversion H1 as [|? ? Hr1 Hx]; subst. inversion H2 as [|? ? Hr2 Hy]; subst.
    rewrite Forall_forall in Hx, Hy.
    assert (Exy : x = y).
    { assert (Hxin : In x (y :: r2)) by (apply (Permutation_in _ Hp); left; reflexivity).
      assert (Hyin : In y (x :: r1))
        by (apply (Permutation_in _ (Permutation_sym Hp)); left; reflexivity).
      destruct Hxin as [E | Hxin]; [symmetry; exact E|].
      destruct Hyin as [E | Hyin]; [exact E|].
      apply String.leb_antisym; [apply Hx, Hyin | apply Hy, Hxin]. }
    subst y. f_equal. apply IH; try assumption.
    apply Permutation_cons_inv in Hp. exact Hp.
Qed.

Lemma sort_unique (l l' : list string) :
  Permutation l' l -> Sorted str_le l' -> l' = JsArray.sort l.
Proof.
  intros Hp Hs.
  assert (Htrans : Relations_1.Transitive str_le) by (intros a b c; apply str_le_trans).
  apply StronglySorted_Permutation_eq.
  - apply Sorted_StronglySorted; assumption.
  - apply Sorted_StronglySorted; [exact Htrans | apply sort_Sorted].
  - rewrite Hp. symmetry. apply sort_Permutation.
Qed.

(** A sorted list without repetition is strictly ascending, each element
    being smaller than every later one. *)
Lemma Sorted_NoDup_strict (l : list string) :
  Sorted str_le l -> NoDup l -> StronglySorted str_lt l.
Proof.
  intros Hs Hn.
  apply Sorted_StronglySorted in Hs; [|intros a b c; apply str_le_trans].
  induction Hs as [|x r Hr IH Hx]; constructor.
  - apply IH. inversion Hn; assumption.
  - apply Forall_forall. intros y Hy.
    rewrite Forall_forall in Hx. specialize (Hx y Hy).
    apply str_le_cases in Hx. destruct Hx as [Hlt | Heq]; [exact Hlt|].
    subst. inversion Hn; contradiction.
Qed.

(** ** Objects *)

Section ObjectLemmas.

Context {V : Type}.
Implicit Types (o t s : JsObject.t V) (k : string) (v : V).

Lemma get_set o k v k' :
  JsObject.get (JsObject.set o k v) k' =
  if String.eqb k k' then Some v else JsObject.get o k'.
Proof.
  induction o as [|[k0 v0] o IH]; simpl.
  - reflexivity.
  - destruct (String.eqb k0 k) eqn:E0; simpl.
    + apply String.eqb_eq in E0. subst k0.
      destruct (String.eqb k k'); reflexivity.
    + destruct (String.eqb k0 k') eqn:E1; [|exact IH].
      apply String.eqb_eq in E1. subst k0.
      rewrite String.eqb_sym, E0. reflexivity.
Qed.

Lemma keys_set o k v :
  JsObject.keys (JsObject.set o k v) =
  if mem k (JsObject.keys o) then JsObject.keys o else (JsObject.keys o ++ [k])%list.
Proof.
  unfold JsObject.keys.
  induction o as [|[k0 v0] o IH]; [reflexivity|].
  cbn [JsObject.set map fst mem existsb].
  rewrite (String.eqb_sym k k0).
  destruct (String.eqb k0 k); cbn [orb map fst]; [reflexivity|].
  rewrite IH. unfold mem. destruct (existsb (String.eqb k) (map fst o)); reflexivity.
Qed.

Lemma get_None_keys o k : JsObject.get o k = None <-> ~ In k (JsObject.keys o).
Proof.
  induction o as [|[k0 v0] o IH]; simpl; [tauto|].
  destruct (String.eqb k0 k) eqn:E.
  - apply String.eqb_eq in E. split; [discriminate | tauto].
  - apply String.eqb_neq in E. rewrite IH. tauto.
Qed.

(** [Object.assign] adds the properties of the source that the target lacks
    after the target's own, in the order of the source. *)
Lemma keys_assign s t :
  JsObject.keys (JsObject.assign t s) =
  (JsObject.keys t ++
     List.filter (notin (JsObject.keys t)) (distinct (JsObject.keys s)))%list.
Proof.
  revert t. induction s as [|[k v] s IH]; intros t.
  - simpl. rewrite app_nil_r. reflexivity.
  - unfold JsObject.assign in *. cbn [fold_left fst snd].
    rewrite IH, keys_set.
    cbn [JsObject.keys map fst distinct List.filter].
    fold (JsObject.keys s). fold (JsObject.keys t).
    assert (Hn : notin (JsObject.keys t) k = negb (mem k (JsObject.keys t)))
      by reflexivity.
    destruct (mem k (JsObject.keys t)) eqn:Hm; rewrite Hn; cbn [negb].
    + rewrite (filter_notin_absorb _ _ _ Hm). reflexivity.
    + rewrite filter_notin_snoc, <- app_assoc. reflexivity.
Qed.

(** A property of the source overrides the target's. *)
Lemma get_assign s t k :
  NoDup (JsObject.keys s) ->
  JsObject.get (JsObject.assign t s) k =
  match JsObject.get s k with
  | Some v => Some v
  | None => JsObject.get t k
  end.
Proof.
  revert t. induction s as [|[k0 v0] s IH]; intros t Hs; [reflexivity|].
  inversion Hs as [|? ? Hk0 Hs']; subst.
  unfold JsObject.assign in *. cbn [fold_left fst snd JsObject.get].
  rewrite (IH _ Hs'), get_set.
  destruct (String.eqb k0 k) eqn:E; [|reflexivity].
  apply String.eqb_eq in E. subst k0.
  apply get_None_keys in Hk0. rewrite Hk0. reflexivity.
Qed.

Lemma keys_NoDup_assign s t :
  NoDup (JsObject.keys t) -> NoDup (JsObject.keys (JsObject.assign t s)).
Proof.
  intros Ht. rewrite keys_assign. apply NoDup_app.
  - exact Ht.
  - apply NoDup_filter, distinct_NoDup.
  - intros x Hx Hf. apply filter_In in Hf. destruct Hf as [_ Hf].
    unfold notin in Hf. apply mem_In in Hx. rewrite Hx in Hf. discriminate.
Qed.

Lemma keys_In_assign s t k :
  In k (JsObject.keys (JsObject.assign t s)) <->
  In k (JsObject.keys t) \/ In k (JsObject.keys s).
Proof.
  rewrite keys_assign, in_app_iff, filter_In, distinct_In.
  unfold notin. split.
  - intros [Ht | [Hs _]]; auto.
  - intros [Ht | Hs]; [left; exact Ht|].
    destruct (mem k (JsObject.keys t)) eqn:Hm.
    + left. apply mem_In, Hm.
    + right. split; [exact Hs | reflexivity].
Qed.

(** A table built by folding single-property assignments over a list of
    names. *)
Lemma reduce_as_assign (f : string -> V) (l : list string) t :
  JsArray.reduce
    (fun acc name => JsObject.assign acc (JsObject.singleton name (f name))) t l
  = JsObject.assign t (map (fun name => (name, f name)) l).
Proof.
  revert t. induction l as [|x r IH]; intros t; [reflexivity|].
  unfold JsArray.reduce, JsObject.assign in *. cbn [fold_left map fst snd].
  rewrite <- IH. reflexivity.
Qed.

Lemma get_reduce (f : string -> V) (l : list string) t k :
  JsObject.get
    (JsArray.reduce
       (fun acc name => JsObject.assign acc (JsObject.singleton name (f name))) t l) k
  = if mem k l then Some (f k) else JsObject.get t k.
Proof.
  revert t. induction l as [|x r IH]; intros t; [reflexivity|].
  unfold JsArray.reduce in *. cbn [fold_left].
  rewrite IH. cbn [mem existsb].
  fold (mem k r). destruct (mem k r); [rewrite orb_true_r; reflexivity|].
  rewrite orb_false_r.
  change (JsObject.assign t (JsObject.singleton x (f x))) with (JsObject.set t x (f x)).
  rewrite get_set, (String.eqb_sym k x).
  destruct (String.eqb x k) eqn:E; [|reflexivity].
  apply String.eqb_eq in E. subst. reflexivity.
Qed.

Lemma keys_reduce_empty (f : string -> V) (l : list string) :
  JsObject.keys
    (JsArray.reduce
       (fun acc name => JsObject.assign acc (JsObject.singleton name (f name)))
       JsObject.empty l)
  = distinct l.
Proof.
  rewrite reduce_as_assign, keys_assign. cbn [JsObject.keys JsObject.empty map app].
  rewrite filter_notin_nil. unfold JsObject.keys. rewrite map_map. cbn [fst].
  rewrite map_id. reflexivity.
Qed.

End ObjectLemmas.

(** ** The classification tables *)

Section Tables.

Context `{Compliance}.

Lemma idFieldDataTypeClassification_get (k : string) :
  JsObject.get idFieldDataTypeClassification k =
  if mem k (customIdLogicalTypes ++ idLogicalTypes) then Some LimitedDistribution else None.
Proof.
  unfold idFieldDataTypeClassification.
  rewrite (get_reduce (fun _ => LimitedDistribution)). reflexivity.
Qed.

Lemma idFieldDataTypeClassification_keys :
  JsObject.keys idFieldDataTypeClassification =
  distinct (customIdLogicalTypes ++ idLogicalTypes).
Proof.
  unfold idFieldDataTypeClassification.
  apply (keys_reduce_empty (fun _ => LimitedDistribution)).
Qed.

Lemma nonIdFieldDataTypeClassification_get (k : string) :
  JsObject.get nonIdFieldDataTypeClassification k =
  if mem k genericLogicalTypes
  then Some (classification (nonIdFieldLogicalTypes k)) else None.
Proof.
  unfold nonIdFieldDataTypeClassification.
  rewrite (get_reduce (fun name => classification (nonIdFieldLogicalTypes name))).
  reflexivity.
Qed.

Lemma nonIdFieldDataTypeClassification_keys :
  JsObject.keys nonIdFieldDataTypeClassification = distinct genericLogicalTypes.
Proof.
  unfold nonIdFieldDataTypeClassification.
  apply (keys_reduce_empty (fun name => classification (nonIdFieldLogicalTypes name))).
Qed.

Lemma spread_copy :
  JsObject.assign JsObject.empty idFieldDataTypeClassification
  = idFieldDataTypeClassification.
Proof.
  assert (G : forall (s t : JsObject.t Classification),
             NoDup (JsObject.keys t ++ JsObject.keys s) ->
             JsObject.assign t s = (t ++ s)%list).
  { induction s as [|[k v] s IH]; intros t Hnd.
    - simpl. rewrite app_nil_r. reflexivity.
    - unfold JsObject.assign in *. cbn [fold_left fst snd].
      assert (Hset : JsObject.set t k v = (t ++ [(k, v)])%list).
      { clear IH. cbn [JsObject.keys map fst] in Hnd.
        apply NoDup_remove_2 in Hnd.
        assert (Hk : ~ In k (JsObject.keys t))
          by (intros Hin; apply Hnd, in_or_app; left; exact Hin).
        clear Hnd. induction t as [|[k0 v0] t IHt]; [reflexivity|].
        simpl. destruct (String.eqb k0 k) eqn:E.
        - apply String.eqb_eq in E. subst. exfalso. apply Hk. left. reflexivity.
        - rewrite IHt; [reflexivity|]. intros Hin. apply Hk. right. exact Hin. }
      rewrite Hset, IH.
      + rewrite <- app_assoc. reflexivity.
      + unfold JsObject.keys in *. rewrite map_app. cbn [map fst].
        rewrite <- app_assoc. exact Hnd. }
  apply (G _ JsObject.empty). cbn [JsObject.keys JsObject.empty map app].
  fold (JsObject.keys idFieldDataTypeClassification).
  rewrite idFieldDataTypeClassification_keys. apply distinct_NoDup.
Qed.

Lemma defaultFieldDataTypeClassification_get (k : string) :
  JsObject.get defaultFieldDataTypeClassification k =
  match JsObject.get nonIdFieldDataTypeClassification k with
  | Some c => Some c
  | None => JsObject.get idFieldDataTypeClassification k
  end.
Proof.
  unfold defaultFieldDataTypeClassification.
  rewrite spread_copy, get_assign; [reflexivity|].
  rewrite nonIdFieldDataTypeClassification_keys. apply distinct_NoDup.
Qed.

Lemma defaultFieldDataTypeClassification_keys :
  JsObject.keys defaultFieldDataTypeClassification =
  (JsObject.keys idFieldDataTypeClassification ++
     List.filter (notin (JsObject.keys idFieldDataTypeClassification))
       (JsObject.keys nonIdFieldDataTypeClassification))%list.
Proof.
  unfold defaultFieldDataTypeClassification.
  rewrite spread_copy, keys_assign.
  rewrite (distinct_fixed (JsObject.keys nonIdFieldDataTypeClassification)); [reflexivity|].
  rewrite nonIdFieldDataTypeClassification_keys. apply distinct_NoDup.
Qed.

Lemma defaultFieldDataTypeClassification_keys_In (k : string) :
  In k (JsObject.keys defaultFieldDataTypeClassification) <->
  In k (JsObject.keys idFieldDataTypeClassification) \/
  In k (JsObject.keys nonIdFieldDataTypeClassification).
Proof.
  unfold defaultFieldDataTypeClassification.
  rewrite spread_copy. apply keys_In_assign.
Qed.

Lemma defaultFieldDataTypeClassification_keys_NoDup :
  NoDup (JsObject.keys defaultFieldDataTypeClassification).
Proof.
  unfold defaultFieldDataTypeClassification.
  apply keys_NoDup_assign. rewrite spread_copy, idFieldDataTypeClassification_keys.
  apply distinct_NoDup.
Qed.

Lemma classifiers_distinct :
  classifiers = distinct (JsObject.values defaultFieldDataTypeClassification).
Proof. apply filter_first_occurrences. Qed.

End Tables.

(** C2.  [idFieldDataTypeClassification] is built from the empty object by
    assigning [LimitedDistribution] to every identifier logical-type name,
    the custom ones first and the standard ones after them; 
    [nonIdFieldDataTypeClassification] assigns to every generic logical-type
    name the classification of its registry entry; and
    [defaultFieldDataTypeClassification] is their merge: its keys are the
    union of the keys of the two maps, each once, and a key is looked up in
    the non-ID map first and in the ID map otherwise. *)
Theorem defaultFieldDataTypeClassification_is_key_union :
  forall (C : Compliance),
    (forall k, JsObject.get idFieldDataTypeClassification k =
               if mem k (customIdLogicalTypes ++ idLogicalTypes)
               then Some LimitedDistribution else None)
    /\ JsObject.keys idFieldDataTypeClassification =
       distinct (customIdLogicalTypes ++ idLogicalTypes)
    /\ (forall k, JsObject.get nonIdFieldDataTypeClassification k =
                  if mem k genericLogicalTypes
                  then Some (classification (nonIdFieldLogicalTypes k)) else None)
    /\ JsObject.keys nonIdFieldDataTypeClassification = distinct genericLogicalTypes
    /\ (forall k, JsObject.get defaultFieldDataTypeClassification k =
                  match JsObject.get nonIdFieldDataTypeClassification k with
                  | Some c => Some c
                  | None => JsObject.get idFieldDataTypeClassification k
                  end)
    /\ (forall k, In k (JsObject.keys defaultFieldDataTypeClassification) <->
                  In k (JsObject.keys idFieldDataTypeClassification) \/
                  In k (JsObject.keys nonIdFieldDataTypeClassification))
    /\ NoDup (JsObject.keys defaultFieldDataTypeClassification)
    /\ JsObject.keys defaultFieldDataTypeClassification =
       (JsObject.keys idFieldDataTypeClassification ++
          List.filter (notin (JsObject.keys idFieldDataTypeClassification))
            (JsObject.keys nonIdFieldDataTypeClassification))%list.
Proof.
  intros C. repeat apply conj.
  - apply idFieldDataTypeClassification_get.
  - apply idFieldDataTypeClassification_keys.
  - apply nonIdFieldDataTypeClassification_get.
  - apply nonIdFieldDataTypeClassification_keys.
  - apply defaultFieldDataTypeClassification_get.
  - apply defaultFieldDataTypeClassification_keys_In.
  - apply defaultFieldDataTypeClassification_keys_NoDup.
  - apply defaultFieldDataTypeClassification_keys.
Qed.


Section MergeOfSources.

Context `{Compliance}.

Lemma idFieldDataTypeClassification_keys_In (k : string) :
  In k (JsObject.keys idFieldDataTypeClassification) <->
  In k (customIdLogicalTypes ++ idLogicalTypes).
Proof. rewrite idFieldDataTypeClassification_keys. apply distinct_In. Qed.

Lemma nonIdFieldDataTypeClassification_keys_In (k : string) :
  In k (JsObject.keys nonIdFieldDataTypeClassification) <-> In k genericLogicalTypes.
Proof. rewrite nonIdFieldDataTypeClassification_keys. apply distinct_In. Qed.


End MergeOfSources.




(** C1.  [securityClassificationDropdownOptions] starts with the sentinel
    option, whose value is empty; the values of the options after it are the
    classifiers of the merged classification map, each distinct classifier
    once, in strictly ascending lexicographic order of the values; and the
    sequence has one option more than there are distinct classifiers. *)
Theorem securityClassificationDropdownOptions_sorted_distinct :
  forall (C : Compliance),
    let options := securityClassificationDropdownOptions in
    let values := map SecurityClassificationOption.value (tl options) in
    hd_error options =
      Some {| SecurityClassificationOption.value := "";
              SecurityClassificationOption.label := "..." |}
    /\ NoDup values
    /\ (forall c, In c values <->
                  In c (JsObject.values defaultFieldDataTypeClassification))
    /\ StronglySorted str_lt values
    /\ List.length options =
       S (List.length
            (nodup string_dec (JsObject.values defaultFieldDataTypeClassification))).
Proof.
  intros C options values.
  assert (Hvalues : values = JsArray.sort classifiers).
  { unfold values, options, securityClassificationDropdownOptions.
    cbn [map tl]. rewrite map_map. cbn [SecurityClassificationOption.value].
    apply map_id. }
  assert (Hperm : Permutation values
                    (distinct (JsObject.values defaultFieldDataTypeClassification))).
  { rewrite Hvalues, classifiers_distinct. apply sort_Permutation. }
  assert (Hnd : NoDup values).
  { apply (Permutation_NoDup (Permutation_sym Hperm)), distinct_NoDup. }
  repeat apply conj.
  - reflexivity.
  - exact Hnd.
  - intros c.
    rewrite <- (distinct_In c (JsObject.values defaultFieldDataTypeClassification)).
    split; apply Permutation_in;
      [exact Hperm | apply Permutation_sym, Hperm].
  - apply Sorted_NoDup_strict; [|exact Hnd]. rewrite Hvalues. apply sort_Sorted.
  - unfold options, securityClassificationDropdownOptions.
    rewrite length_map. cbn [List.length]. f_equal.
    rewrite <- distinct_length_nodup, <- classifiers_distinct.
    apply Permutation_length, sort_Permutation.
Qed.

(** ** The regular-expression replacements of the identifier labels *)

Lemma append_nil_r (s : string) : s ++ "" = s.
Proof. induction s as [|c r IH]; [reflexivity|]. simpl. rewrite IH. reflexivity. Qed.

Lemma concat_cons (x : string) (xs : list string) :
  String.concat "" (x :: xs) = x ++ String.concat "" xs.
Proof.
  destruct xs as [|y ys]; simpl; [rewrite append_nil_r|]; reflexivity.
Qed.

Lemma take_drop (p : ascii -> bool) (s : string) :
  take_while p s ++ drop_while p s = s.
Proof.
  induction s as [|c r IH]; [reflexivity|].
  simpl. destruct (p c); simpl; [rewrite IH|]; reflexivity.
Qed.

Lemma take_while_ext (p q : ascii -> bool) (s : string) :
  (forall c, p c = q c) -> take_while p s = take_while q s.
Proof.
  intros E. induction s as [|c r IH]; [reflexivity|].
  simpl. rewrite E, IH. reflexivity.
Qed.

Lemma drop_while_ext (p q : ascii -> bool) (s : string) :
  (forall c, p c = q c) -> drop_while p s = drop_while q s.
Proof.
  intros E. induction s as [|c r IH]; [reflexivity|].
  simpl. rewrite E, IH. reflexivity.
Qed.

Lemma drop_while_length (p : ascii -> bool) (s : string) :
  String.length (drop_while p s) <= String.length s.
Proof.
  induction s as [|c r IH]; [reflexivity|].
  simpl. destruct (p c); simpl; lia.
Qed.

Lemma take_while_length (p : ascii -> bool) (s : string) :
  String.length (take_while p s) = prefix_len p s.
Proof.
  induction s as [|c r IH]; [reflexivity|].
  simpl. destruct (p c); simpl; [rewrite IH|]; reflexivity.
Qed.

Lemma substring_prefix_len (p : ascii -> bool) (s : string) :
  substring 0 (prefix_len p s) s = take_while p s.
Proof.
  induction s as [|c r IH]; [reflexivity|].
  simpl. destruct (p c); [rewrite IH|]; reflexivity.
Qed.

Lemma same_class_upper (c : ascii) :
  is_upper c = true -> forall d, same_class c d = is_upper d.
Proof. intros H d. unfold same_class. rewrite H. destruct (is_upper d); reflexivity. Qed.

Lemma same_class_other (c : ascii) :
  is_upper c = false -> forall d, same_class c d = negb (is_upper d).
Proof. intros H d. unfold same_class. rewrite H. destruct (is_upper d); reflexivity. Qed.

Lemma same_class_refl (c : ascii) : same_class c c = true.
Proof. apply Bool.eqb_reflx. Qed.

Lemma same_class_trans (c d : ascii) :
  same_class c d = true -> forall e, same_class c e = same_class d e.
Proof.
  unfold same_class. intros H e. apply Bool.eqb_prop in H. rewrite H. reflexivity.
Qed.

(** The first run of a string and the runs of what follows it. *)
Lemma spec_runs_cons (c : ascii) (r : string) :
  spec_runs (String c r) =
  take_while (same_class c) (String c r)
    :: spec_runs (drop_while (same_class c) (String c r)).
Proof.
  revert c. induction r as [|d r IH]; intros c.
  - simpl. rewrite same_class_refl. reflexivity.
  - change (spec_runs (String c (String d r)))
      with (match spec_runs (String d r) with
            | [] => [String c EmptyString]
            | EmptyString :: bs => String c EmptyString :: bs
            | String d' b :: bs =>
                if Bool.eqb (is_upper c) (is_upper d')
                then String c (String d' b) :: bs
                else String c EmptyString :: String d' b :: bs
            end).
    rewrite (IH d).
    cbn [take_while drop_while]. rewrite !same_class_refl.
    fold (same_class c d).
    destruct (same_class c d) eqn:E.
    + rewrite (take_while_ext _ _ r (same_class_trans c d E)).
      rewrite (drop_while_ext _ _ r (same_class_trans c d E)). reflexivity.
    + rewrite IH. cbn [take_while drop_while]. rewrite same_class_refl. reflexivity.
Qed.

(** The callbacks do not depend on whether the position is the start. *)
Lemma replace_run3_start (fn : string -> string) (b : bool) (s : string) :
  replace_g re_upper_run3 fn 0 b s = replace_g re_upper_run3 fn 0 false s.
Proof. destruct s; reflexivity. Qed.

Lemma replace_g_skip_app (re : Matcher) (fn : string -> string) (run rest : string) :
  replace_g re fn (String.length run) false (run ++ rest) = replace_g re fn 0 false rest.
Proof.
  induction run as [|c run IH]; [reflexivity|].
  simpl. exact IH.
Qed.

Lemma re_upper_run3_eq (b : bool) (s : string) :
  re_upper_run3 b s =
  if (3 <=? prefix_len is_upper s)%nat then Some (prefix_len is_upper s) else None.
Proof. reflexivity. Qed.

Lemma replace_run3_match (fn : string -> string) (b : bool) (s : string) :
  3 <= prefix_len is_upper s ->
  replace_g re_upper_run3 fn 0 b s =
  fn (take_while is_upper s) ++ replace_g re_upper_run3 fn 0 false (drop_while is_upper s).
Proof.
  intros Hn. destruct s as [|c r]; [simpl in Hn; lia|].
  rewrite replace_g_0, re_upper_run3_eq.
  destruct (Nat.leb_spec 3 (prefix_len is_upper (String c r))) as [_|Hlt]; [|lia].
  rewrite <- (substring_prefix_len is_upper (String c r)).
  cbn [prefix_len drop_while] in *.
  destruct (is_upper c); [|lia].
  f_equal.
  rewrite <- (take_while_length is_upper r).
  pose proof (replace_g_skip_app re_upper_run3 fn
                (take_while is_upper r) (drop_while is_upper r)) as Hskip.
  rewrite take_drop in Hskip. exact Hskip.
Qed.

Lemma replace_run3_short (fn : string -> string) (b : bool) (s : string) :
  prefix_len is_upper s < 3 ->
  replace_g re_upper_run3 fn 0 b s =
  take_while is_upper s ++ replace_g re_upper_run3 fn 0 false (drop_while is_upper s).
Proof.
  revert b. induction s as [|c r IH]; intros b Hn; [reflexivity|].
  cbn [take_while drop_while]. destruct (is_upper c) eqn:Ec.
  - rewrite replace_g_0, re_upper_run3_eq.
    destruct (Nat.leb_spec 3 (prefix_len is_upper (String c r))) as [Hge|_]; [lia|].
    cbn [prefix_len] in Hn. rewrite Ec in Hn.
    rewrite (IH false) by lia. reflexivity.
  - apply replace_run3_start.
Qed.

Lemma replace_run3_other (fn : string -> string) (b : bool) (s : string) :
  replace_g re_upper_run3 fn 0 b s =
  take_while (fun c => negb (is_upper c)) s
    ++ replace_g re_upper_run3 fn 0 false (drop_while (fun c => negb (is_upper c)) s).
Proof.
  revert b. induction s as [|c r IH]; intros b; [reflexivity|].
  cbn [take_while drop_while]. destruct (is_upper c) eqn:Ec; cbn [negb].
  - apply replace_run3_start.
  - rewrite replace_g_0, re_upper_run3_eq. cbn [prefix_len]. rewrite Ec.
    cbn [Nat.leb]. rewrite (IH false). reflexivity.
Qed.

Lemma lowered_run_no_slash (s : string) :
  slash_then_lower (toLowerCase (take_while is_upper s)) = false.
Proof.
  induction s as [|c r IH]; [reflexivity|].
  cbn [take_while]. destruct (is_upper c) eqn:Ec; [|reflexivity].
  unfold toLowerCase in *. cbn [map_chars].
  rewrite slash_then_lower_eq, IH.
  destruct (Ascii.eqb (char_toLowerCase c) "/") eqn:E; [|reflexivity].
  apply eqb_slash_not_lower in E.
  rewrite (toLowerCase_upper_is_lower c Ec) in E. discriminate.
Qed.

(** On a run of upper-case letters, lower-casing and then [capitalize]
    leaves the first letter as it is and lower-cases the others. *)
Lemma capitalize_lowered_run (s : string) :
  capitalize (toLowerCase (take_while is_upper s)) =
  spec_capitalize_first (toLowerCase (take_while is_upper s)).
Proof.
  rewrite capitalize_spec. apply capitalize_first_only, lowered_run_no_slash.
Qed.

Lemma replace_re_underscore (b : bool) (s : string) :
  replace_g re_underscore (fun _ => " ") 0 b s = spec_underscores_to_spaces s.
Proof.
  revert b. induction s as [|c r IH]; intros b; [reflexivity|].
  rewrite replace_g_0. unfold spec_underscores_to_spaces in *.
  cbn [re_underscore map_chars].
  destruct (Ascii.eqb c "_"); rewrite IH; reflexivity.
Qed.

Lemma title_case_run_upper (c : ascii) (r : string) :
  is_upper c = true ->
  spec_title_case_run (take_while is_upper (String c r)) =
  if (3 <=? prefix_len is_upper (String c r))%nat
  then spec_capitalize_first (toLowerCase (take_while is_upper (String c r)))
  else take_while is_upper (String c r).
Proof.
  intros Ec. rewrite <- take_while_length.
  cbn [take_while]. rewrite Ec.
  unfold spec_title_case_run. rewrite Ec. reflexivity.
Qed.

Lemma title_case_run_other (c : ascii) (r : string) :
  is_upper c = false ->
  spec_title_case_run (take_while (fun d => negb (is_upper d)) (String c r)) =
  take_while (fun d => negb (is_upper d)) (String c r).
Proof.
  intros Ec. cbn [take_while]. rewrite Ec. cbn [negb].
  unfold spec_title_case_run. rewrite Ec. reflexivity.
Qed.

Lemma replace_run3_spec_bounded (n : nat) :
  forall (s : string) (b : bool),
    String.length s <= n ->
    replace_g re_upper_run3 (fun value => capitalize (toLowerCase value)) 0 b s =
    String.concat "" (map spec_title_case_run (spec_runs s)).
Proof.
  induction n as [|n IH]; intros s b Hlen.
  - destruct s; [reflexivity | simpl in Hlen; lia].
  - destruct s as [|c r]; [reflexivity|].
    rewrite spec_runs_cons. cbn [map]. rewrite concat_cons.
    assert (Hrest : String.length (drop_while (same_class c) (String c r)) <= n).
    { cbn [drop_while]. rewrite same_class_refl.
      pose proof (drop_while_length (same_class c) r). simpl in Hlen. lia. }
    rewrite <- (IH _ false Hrest).
    destruct (is_upper c) eqn:Ec.
    + rewrite (take_while_ext _ _ _ (same_class_upper c Ec)).
      rewrite (drop_while_ext _ _ _ (same_class_upper c Ec)).
      rewrite (title_case_run_upper c r Ec).
      destruct (Nat.leb_spec 3 (prefix_len is_upper (String c r))) as [Hge|Hlt].
      * rewrite (replace_run3_match _ b _ Hge), capitalize_lowered_run. reflexivity.
      * apply replace_run3_short, Hlt.
    + rewrite (take_while_ext _ _ _ (same_class_other c Ec)).
      rewrite (drop_while_ext _ _ _ (same_class_other c Ec)).
      rewrite (title_case_run_other c r Ec).
      apply replace_run3_other.
Qed.

Lemma replace_run3_spec (s : string) :
  replace re_upper_run3 (fun value => capitalize (toLowerCase value)) s =
  String.concat "" (map spec_title_case_run (spec_runs s)).
Proof. apply (replace_run3_spec_bounded (String.length s)). apply Nat.le_refl. Qed.

Lemma id_label_spec (value : string) :
  replace re_upper_run3 (fun value => capitalize (toLowerCase value))
    (replace re_underscore (fun _ => " ") value)
  = spec_id_label value.
Proof.
  unfold spec_id_label. rewrite <- replace_run3_spec.
  unfold replace at 2. rewrite replace_re_underscore. reflexivity.
Qed.

(** C8.  For each of the two categories, [logicalTypeValueLabel] returns one
    pair per entry of the category's enumeration, in the order of the
    enumeration, whose value is the entry.  For the generic category the label
    is the [displayAs] name of the entry in the registry; for the identifier
    category it is the entry with its underscores replaced by spaces and every
    run of three or more consecutive upper-case letters replaced by its
    lower-cased form with the first letter capitalized. *)
Theorem logicalTypeValueLabel_pairs :
  forall (C : Compliance),
    logicalTypeValueLabel K_generic =
      map (fun value =>
             {| FieldFormatDropdownOption.value := value;
                FieldFormatDropdownOption.label :=
                  displayAs (nonIdFieldLogicalTypes value) |})
          genericLogicalTypes
    /\ logicalTypeValueLabel K_id =
         map (fun value =>
                {| FieldFormatDropdownOption.value := value;
                   FieldFormatDropdownOption.label := spec_id_label value |})
             idLogicalTypes
    /\ List.length (logicalTypeValueLabel K_generic) = List.length genericLogicalTypes
    /\ List.length (logicalTypeValueLabel K_id) = List.length idLogicalTypes.
Proof.
  intros C. unfold logicalTypeValueLabel. repeat apply conj.
  - reflexivity.
  - apply map_ext. intros value. rewrite id_label_spec. reflexivity.
  - apply length_map.
  - apply length_map.
Qed.

(* ===================================================================== *)
(** * Further properties *)
(* ===================================================================== *)

(** ** Length and shape of the classification labels *)

Lemma map_chars_length (f : ascii -> ascii) (s : string) :
  String.length (map_chars f s) = String.length s.
Proof. induction s as [|c r IH]; simpl; [|rewrite IH]; reflexivity. Qed.

Lemma append_length (a b : string) :
  String.length (a ++ b) = String.length a + String.length b.
Proof. induction a as [|c a IH]; simpl; [|rewrite IH]; reflexivity. Qed.

Lemma insert_space_length (s : string) :
  String.length (spec_insert_space_before_upper s) =
  String.length s + count_chars is_upper s.
Proof.
  induction s as [|c r IH]; [reflexivity|].
  simpl. destruct (is_upper c); simpl; rewrite IH; lia.
Qed.

Lemma capitalize_after_slash_length (s : string) :
  String.length (spec_capitalize_after_slash s) = String.length s.
Proof.
  induction s as [|c|c d r IHr IHdr] using string_pair_ind.
  - reflexivity.
  - rewrite after_slash_eq. destruct (Ascii.eqb c "/"); reflexivity.
  - rewrite (after_slash_eq c).
    destruct (Ascii.eqb c "/"); [destruct (is_lower d)|]; simpl in *; congruence.
Qed.

Lemma capitalize_length (s : string) :
  String.length (spec_capitalize_first_and_after_slash s) = String.length s.
Proof.
  destruct s as [|c r]; [reflexivity|].
  unfold spec_capitalize_first_and_after_slash.
  destruct (is_lower c).
  - simpl. rewrite capitalize_after_slash_length. reflexivity.
  - apply capitalize_after_slash_length.
Qed.

(** X1.  For an ASCII value, the label is longer than the value by one
    character for every upper-case letter of the value: a space is added
    before each of them and nothing else is added or removed. *)
Theorem format_length (s : string) :
  ascii_only s = true ->
  String.length (formatAsCapitalizedStringWithSpaces s) =
  String.length s + count_chars is_upper s.
Proof.
  intros _. rewrite format_spec, capitalize_length. apply insert_space_length.
Qed.

Lemma format_length_witness :
  ascii_only "highlyConfidential" = true
  /\ String.length (formatAsCapitalizedStringWithSpaces "highlyConfidential") = 18 + 1.
Proof.
  split; [reflexivity|].
  exact (format_length "highlyConfidential" eq_refl).
Defined.

(** X2.  A label never begins with a lower-case letter, and in a label no
    slash is directly followed by a lower-case letter. *)
Theorem format_result_capitalized (s : string) :
  starts_with is_lower (formatAsCapitalizedStringWithSpaces s) = false
  /\ slash_then_lower (formatAsCapitalizedStringWithSpaces s) = false.
Proof. rewrite format_spec. apply capitalize_result_clean. Qed.

(** ** Reading a classification label back *)

Lemma toLowerCase_toUpperCase_lower (d : ascii) :
  is_lower d = true -> char_toLowerCase (char_toUpperCase d) = d.
Proof.
  intros H. unfold char_toLowerCase.
  rewrite (toUpperCase_lower_is_upper d H).
  unfold char_toUpperCase. rewrite H.
  unfold is_lower in H. apply andb_true_iff in H. destruct H as [H1 H2].
  apply N.leb_le in H1, H2. unfold code in *.
  rewrite N_ascii_embedding by lia.
  replace (N_of_ascii d - 32 + 32)%N with (N_of_ascii d) by lia.
  apply ascii_N_embedding.
Qed.

Lemma insert_space_starts_upper (s : string) :
  starts_with is_upper (spec_insert_space_before_upper s) = false.
Proof.
  destruct s as [|c r]; [reflexivity|].
  cbn [spec_insert_space_before_upper].
  destruct (is_upper c) eqn:Ec; [reflexivity | exact Ec].
Qed.

Lemma inserted_capitalized_starts_upper (s : string) :
  starts_with is_upper (spec_capitalize_after_slash (spec_insert_space_before_upper s))
  = false.
Proof. rewrite capitalize_after_slash_starts. apply insert_space_starts_upper. Qed.

Lemma unformat_rest_cons (c : ascii) (r : string) :
  starts_with is_upper r = false ->
  unformat_rest (String c r) = String c (unformat_rest r).
Proof.
  intros H. destruct r as [|d r']; [reflexivity|].
  cbn [starts_with] in H. cbn [unformat_rest]. rewrite H. reflexivity.
Qed.

Lemma upper_not_slash (c : ascii) : is_upper c = true -> Ascii.eqb c "/" = false.
Proof.
  intros H. destruct (Ascii.eqb c "/") eqn:E; [|reflexivity].
  apply eqb_slash_not_upper in E. congruence.
Qed.

Lemma unformat_rest_inserted (s : string) :
  unformat_rest (spec_capitalize_after_slash (spec_insert_space_before_upper s)) = s.
Proof.
  induction s as [|c|c d r IHr IHdr] using string_pair_ind.
  - reflexivity.
  - cbn [spec_insert_space_before_upper]. destruct (is_upper c) eqn:Ec.
    + rewrite after_slash_eq. change (Ascii.eqb " " "/") with false. cbv beta iota.
      rewrite after_slash_eq, (upper_not_slash c Ec).
      cbn. rewrite Ec. reflexivity.
    + rewrite after_slash_eq. destruct (Ascii.eqb c "/"); reflexivity.
  - change (spec_insert_space_before_upper (String c (String d r)))
      with (if is_upper c
            then String " " (String c (spec_insert_space_before_upper (String d r)))
            else String c (spec_insert_space_before_upper (String d r))).
    destruct (is_upper c) eqn:Ec.
    + rewrite after_slash_eq. change (Ascii.eqb " " "/") with false. cbv beta iota.
      rewrite (after_slash_eq c), (upper_not_slash c Ec).
      cbn [unformat_rest]. rewrite Ec. change (Ascii.eqb " " " ") with true.
      cbv beta iota. rewrite IHdr. reflexivity.
    + rewrite (after_slash_eq c). destruct (Ascii.eqb c "/") eqn:Es.
      * apply Ascii.eqb_eq in Es. subst c.
        cbn [spec_insert_space_before_upper].
        destruct (is_upper d) eqn:Ed.
        -- change (is_lower " ") with false. cbv beta iota.
           fold (spec_insert_space_before_upper (String d r)).
           assert (Hi : String " " (String d (spec_insert_space_before_upper r))
                        = spec_insert_space_before_upper (String d r))
             by (cbn [spec_insert_space_before_upper]; rewrite Ed; reflexivity).
           rewrite Hi, unformat_rest_cons, IHdr; [reflexivity|].
           apply inserted_capitalized_starts_upper.
        -- destruct (is_lower d) eqn:El.
           ++ cbn [unformat_rest].
              rewrite (toUpperCase_lower_is_upper d El).
              change (Ascii.eqb "/" " ") with false.
              change (Ascii.eqb "/" "/") with true. cbv beta iota.
              rewrite IHr, (toLowerCase_toUpperCase_lower d El). reflexivity.
           ++ assert (Hi : String d (spec_insert_space_before_upper r)
                           = spec_insert_space_before_upper (String d r))
                by (cbn [spec_insert_space_before_upper]; rewrite Ed; reflexivity).
              rewrite Hi, unformat_rest_cons, IHdr; [reflexivity|].
              apply inserted_capitalized_starts_upper.
      * rewrite unformat_rest_cons, IHdr; [reflexivity|].
        apply inserted_capitalized_starts_upper.
Qed.

Lemma unformat_format (s : string) :
  unformat (formatAsCapitalizedStringWithSpaces s) = s.
Proof.
  rewrite format_spec. destruct s as [|c r]; [reflexivity|].
  destruct (is_lower c) eqn:Ec.
  - cbn [spec_insert_space_before_upper]. rewrite (lower_not_upper c Ec).
    unfold spec_capitalize_first_and_after_slash. rewrite Ec.
    unfold unformat. rewrite (toUpperCase_lower_is_upper c Ec).
    rewrite unformat_rest_inserted, (toLowerCase_toUpperCase_lower c Ec). reflexivity.
  - assert (Hl : starts_with is_lower (spec_insert_space_before_upper (String c r)) = false)
      by (rewrite insert_space_starts_lower; exact Ec).
    pose proof (inserted_capitalized_starts_upper (String c r)) as Hu.
    pose proof (unformat_rest_inserted (String c r)) as Hr.
    unfold spec_capitalize_first_and_after_slash.
    destruct (spec_insert_space_before_upper (String c r)) as [|a u] eqn:Ei.
    + cbn in Hr. discriminate Hr.
    + cbn [starts_with] in Hl. rewrite Hl.
      unfold unformat.
      destruct (spec_capitalize_after_slash (String a u)) as [|a' u'] eqn:Ea.
      * cbn in Hr. discriminate Hr.
      * cbn [starts_with] in Hu. rewrite Hu. exact Hr.
Qed.

(** X3.  On ASCII values a label determines the value it was made from:
    [unformat] reads an ASCII value back from its label, so two different
    ASCII values never get the same label. *)
Theorem format_injective :
  (forall s, ascii_only s = true ->
             unformat (formatAsCapitalizedStringWithSpaces s) = s)
  /\ (forall s t,
        ascii_only s = true -> ascii_only t = true ->
        formatAsCapitalizedStringWithSpaces s = formatAsCapitalizedStringWithSpaces t ->
        s = t).
Proof.
  split; [intros s _; apply unformat_format|].
  intros s t _ _ E.
  rewrite <- (unformat_format s), <- (unformat_format t), E. reflexivity.
Qed.

Lemma format_injective_witness :
  ascii_only "highlyConfidential" = true
  /\ formatAsCapitalizedStringWithSpaces "highlyConfidential" = "Highly Confidential"
  /\ unformat "Highly Confidential" = "highlyConfidential".
Proof.
  split; [reflexivity|]. split; [reflexivity|].
  exact (proj1 format_injective "highlyConfidential" eq_refl).
Defined.

(** ** Runs of characters *)

(** Induction on a string, one maximal run at a time. *)
Lemma run_ind (P : string -> Prop) :
  P EmptyString ->
  (forall c r, P (drop_while (same_class c) (String c r)) -> P (String c r)) ->
  forall s, P s.
Proof.
  intros H0 Hstep s.
  assert (H : forall n s, String.length s <= n -> P s).
  { induction n as [|n IH]; intros [|c r] Hlen; try exact H0.
    - simpl in Hlen. lia.
    - apply Hstep, IH. cbn [drop_while]. rewrite same_class_refl.
      pose proof (drop_while_length (same_class c) r). simpl in Hlen. lia. }
  apply (H (String.length s)). apply Nat.le_refl.
Qed.

Lemma all_chars_take_while (p : ascii -> bool) (s : string) :
  all_chars p (take_while p s) = true.
Proof.
  induction s as [|c r IH]; [reflexivity|].
  simpl. destruct (p c) eqn:E; [simpl; rewrite E, IH|]; reflexivity.
Qed.

Lemma take_while_all (p : ascii -> bool) (s : string) :
  all_chars p s = true -> take_while p s = s.
Proof.
  induction s as [|c r IH]; [reflexivity|].
  simpl. intros H. apply andb_true_iff in H. destruct H as [Hc Hr].
  rewrite Hc, (IH Hr). reflexivity.
Qed.

Lemma all_chars_impl (p q : ascii -> bool) (s : string) :
  (forall c, p c = true -> q c = true) -> all_chars p s = true -> all_chars q s = true.
Proof.
  intros Hpq. induction s as [|c r IH]; [reflexivity|].
  simpl. intros H. apply andb_true_iff in H. destruct H as [Hc Hr].
  rewrite (Hpq c Hc), (IH Hr). reflexivity.
Qed.

Lemma all_chars_app (p : ascii -> bool) (a b : string) :
  all_chars p (a ++ b) = all_chars p a && all_chars p b.
Proof.
  induction a as [|c a IH]; [reflexivity|].
  simpl. rewrite IH, andb_assoc. reflexivity.
Qed.

Lemma all_chars_map (p q : ascii -> bool) (f : ascii -> ascii) (s : string) :
  (forall c, p c = true -> q (f c) = true) ->
  all_chars p s = true -> all_chars q (map_chars f s) = true.
Proof.
  intros Hf. induction s as [|c r IH]; [reflexivity|].
  simpl. intros H. apply andb_true_iff in H. destruct H as [Hc Hr].
  rewrite (Hf c Hc), (IH Hr). reflexivity.
Qed.

Lemma map_chars_app (f : ascii -> ascii) (a b : string) :
  map_chars f (a ++ b) = map_chars f a ++ map_chars f b.
Proof. induction a as [|c a IH]; simpl; [|rewrite IH]; reflexivity. Qed.

Lemma map_chars_fixed (p : ascii -> bool) (f : ascii -> ascii) (s : string) :
  (forall c, p c = true -> f c = c) -> all_chars p s = true -> map_chars f s = s.
Proof.
  intros Hf. induction s as [|c r IH]; [reflexivity|].
  simpl. intros H. apply andb_true_iff in H. destruct H as [Hc Hr].
  rewrite (Hf c Hc), (IH Hr). reflexivity.
Qed.

Lemma starts_with_app (p : ascii -> bool) (a b : string) :
  a <> EmptyString -> starts_with p (a ++ b) = starts_with p a.
Proof. destruct a; [congruence | reflexivity]. Qed.

(** ** Characters, continued *)

Lemma toLowerCase_not_upper (c : ascii) : is_upper c = false -> char_toLowerCase c = c.
Proof. unfold char_toLowerCase. intros ->. reflexivity. Qed.

Lemma toLowerCase_is_not_upper (c : ascii) : is_upper (char_toLowerCase c) = false.
Proof.
  destruct (is_upper c) eqn:E.
  - apply lower_not_upper, toLowerCase_upper_is_lower, E.
  - rewrite (toLowerCase_not_upper c E). exact E.
Qed.

Lemma toLowerCase_toUpperCase (c : ascii) :
  char_toLowerCase (char_toUpperCase c) = char_toLowerCase c.
Proof.
  destruct (is_lower c) eqn:E.
  - rewrite (toLowerCase_toUpperCase_lower c E).
    symmetry. apply toLowerCase_not_upper, lower_not_upper, E.
  - rewrite (toUpperCase_not_lower c E). reflexivity.
Qed.

Lemma toLowerCase_idem (c : ascii) :
  char_toLowerCase (char_toLowerCase c) = char_toLowerCase c.
Proof. apply toLowerCase_not_upper, toLowerCase_is_not_upper. Qed.

Lemma toLowerCase_string_idem (s : string) : toLowerCase (toLowerCase s) = toLowerCase s.
Proof.
  unfold toLowerCase. induction s as [|c r IH]; [reflexivity|].
  simpl. rewrite toLowerCase_idem, IH. reflexivity.
Qed.

Lemma upper_not_underscore (c : ascii) : is_upper c = true -> not_underscore c = true.
Proof.
  intros H. unfold not_underscore. destruct (Ascii.eqb c "_") eqn:E; [|reflexivity].
  apply Ascii.eqb_eq in E. subst. discriminate H.
Qed.

Lemma lower_not_underscore (c : ascii) : is_lower c = true -> not_underscore c = true.
Proof.
  intros H. unfold not_underscore. destruct (Ascii.eqb c "_") eqn:E; [|reflexivity].
  apply Ascii.eqb_eq in E. subst. discriminate H.
Qed.

(** ** Three consecutive capitals *)

Lemma has_upper3_eq (a : ascii) (r : string) :
  has_upper3 (String a r) = (is_upper a && starts_upper2 r) || has_upper3 r.
Proof. reflexivity. Qed.

Lemma starts_upper2_app (x y : string) :
  starts_with is_upper y = false -> starts_upper2 (x ++ y) = starts_upper2 x.
Proof.
  intros Hy. destruct x as [|b [|c x]]; cbn [append starts_upper2].
  - destruct y as [|b [|c y]]; cbn [starts_with starts_upper2] in *;
      try reflexivity; rewrite Hy; reflexivity.
  - destruct y as [|c y]; cbn [starts_with] in *; [reflexivity|].
    rewrite Hy, andb_false_r. reflexivity.
  - reflexivity.
Qed.

Lemma has_upper3_app_r (x y : string) :
  starts_with is_upper y = false ->
  has_upper3 (x ++ y) = has_upper3 x || has_upper3 y.
Proof.
  intros Hy. induction x as [|a x IH]; [reflexivity|].
  cbn [append]. rewrite !has_upper3_eq, IH, (starts_upper2_app x y Hy), orb_assoc.
  reflexivity.
Qed.

Lemma has_upper3_app_l (x y : string) :
  all_chars (fun c => negb (is_upper c)) x = true ->
  has_upper3 (x ++ y) = has_upper3 y.
Proof.
  induction x as [|a x IH]; intros Hx; [reflexivity|].
  cbn [all_chars] in Hx. apply andb_true_iff in Hx. destruct Hx as [Ha Hx].
  cbn [append]. rewrite has_upper3_eq, (IH Hx).
  apply negb_true_iff in Ha. rewrite Ha. reflexivity.
Qed.

Lemma has_upper3_short (s : string) : String.length s < 3 -> has_upper3 s = false.
Proof.
  destruct s as [|a [|b [|c s]]]; intros H; simpl in H; try lia; cbn.
  - reflexivity.
  - rewrite andb_false_r. reflexivity.
  - rewrite !andb_false_r. reflexivity.
Qed.

Lemma has_upper3_headed (a : ascii) (y : string) :
  all_chars (fun c => negb (is_upper c)) y = true -> has_upper3 (String a y) = false.
Proof.
  intros Hy. rewrite has_upper3_eq.
  pose proof (has_upper3_app_l y EmptyString Hy) as H0.
  rewrite append_nil_r in H0. rewrite H0.
  destruct y as [|b [|c y]]; cbn [starts_upper2 has_upper3];
    rewrite ?andb_false_r; try reflexivity.
  cbn [all_chars] in Hy. apply andb_true_iff in Hy. destruct Hy as [Hb _].
  apply negb_true_iff in Hb. rewrite Hb, andb_false_r. reflexivity.
Qed.

Lemma has_upper3_prefix_len (s : string) :
  has_upper3 s = false -> prefix_len is_upper s < 3.
Proof.
  destruct s as [|a [|b [|c s]]]; cbn [prefix_len]; intros H.
  - lia.
  - destruct (is_upper a); lia.
  - destruct (is_upper a), (is_upper b); lia.
  - rewrite has_upper3_eq in H. cbn [starts_upper2] in H.
    apply orb_false_iff in H. destruct H as [H _].
    destruct (is_upper a), (is_upper b), (is_upper c); try lia; discriminate H.
Qed.

Lemma has_upper3_map (f : ascii -> ascii) (s : string) :
  (forall c, is_upper (f c) = is_upper c) -> has_upper3 (map_chars f s) = has_upper3 s.
Proof.
  intros Hf. induction s as [|a r IH]; [reflexivity|].
  cbn [map_chars]. rewrite !has_upper3_eq, IH, Hf. f_equal. f_equal.
  destruct r as [|b [|c r]]; cbn [map_chars starts_upper2]; rewrite ?Hf; reflexivity.
Qed.

(** ** The replacement of runs of capitals *)

Lemma run3_step (fn : string -> string) (b : bool) (c : ascii) (r : string) :
  replace_g re_upper_run3 fn 0 b (String c r) =
  title_of_run fn (take_while (same_class c) (String c r))
    ++ replace_g re_upper_run3 fn 0 false (drop_while (same_class c) (String c r)).
Proof.
  destruct (is_upper c) eqn:Ec.
  - rewrite (take_while_ext _ _ _ (same_class_upper c Ec)).
    rewrite (drop_while_ext _ _ _ (same_class_upper c Ec)).
    unfold title_of_run. rewrite take_while_length.
    replace (starts_with is_upper (take_while is_upper (String c r))) with true
      by (cbn [take_while]; rewrite Ec; cbn [starts_with]; rewrite Ec; reflexivity).
    cbn [andb].
    destruct (Nat.leb_spec 3 (prefix_len is_upper (String c r))) as [Hge|Hlt].
    + apply replace_run3_match, Hge.
    + apply replace_run3_short, Hlt.
  - rewrite (take_while_ext _ _ _ (same_class_other c Ec)).
    rewrite (drop_while_ext _ _ _ (same_class_other c Ec)).
    unfold title_of_run.
    replace (starts_with is_upper
               (take_while (fun d => negb (is_upper d)) (String c r))) with false
      by (cbn [take_while]; rewrite Ec; cbn [negb starts_with]; rewrite Ec; reflexivity).
    cbn [andb]. apply replace_run3_other.
Qed.

(** The first run of a string is not empty and consists of characters of
    the class of its first character; what follows it starts with a character
    of the other class. *)
Lemma first_run_nonempty (c : ascii) (r : string) :
  take_while (same_class c) (String c r) <> EmptyString.
Proof. cbn [take_while]. rewrite same_class_refl. discriminate. Qed.

Lemma first_run_upper (c : ascii) (r : string) :
  is_upper c = true ->
  all_chars is_upper (take_while (same_class c) (String c r)) = true.
Proof.
  intros Ec. apply (all_chars_impl (same_class c)); [|apply all_chars_take_while].
  intros e He. rewrite (same_class_upper c Ec) in He. exact He.
Qed.

Lemma first_run_other (c : ascii) (r : string) :
  is_upper c = false ->
  all_chars (fun d => negb (is_upper d)) (take_while (same_class c) (String c r)) = true.
Proof.
  intros Ec. apply (all_chars_impl (same_class c)); [|apply all_chars_take_while].
  intros e He. rewrite (same_class_other c Ec) in He. exact He.
Qed.

Lemma after_upper_run (c : ascii) (r : string) :
  is_upper c = true ->
  starts_with is_upper (drop_while (same_class c) (String c r)) = false.
Proof.
  intros Ec. rewrite (drop_while_ext _ _ _ (same_class_upper c Ec)).
  generalize (String c r). intros s.
  induction s as [|d s IH]; [reflexivity|].
  cbn [drop_while]. destruct (is_upper d) eqn:E; [exact IH|].
  cbn [starts_with]. exact E.
Qed.

(** What the replacement does to a run of capitals. *)
Lemma title_of_upper_run (run : string) :
  all_chars is_upper run = true ->
  title_of_run (fun value => capitalize (toLowerCase value)) run =
  if (3 <=? String.length run)%nat then spec_capitalize_first (toLowerCase run) else run.
Proof.
  intros Hall. unfold title_of_run.
  destruct (Nat.leb_spec 3 (String.length run)) as [Hge|Hlt];
    [|rewrite andb_false_r; reflexivity].
  destruct run as [|c run']; [simpl in Hge; lia|].
  pose proof Hall as Hc. cbn [all_chars] in Hc. apply andb_true_iff in Hc.
  cbn [starts_with]. rewrite (proj1 Hc). cbn [andb].
  rewrite <- (take_while_all is_upper _ Hall). apply capitalize_lowered_run.
Qed.

Lemma title_of_other_run (fn : string -> string) (run : string) :
  starts_with is_upper run = false -> title_of_run fn run = run.
Proof. intros H. unfold title_of_run. rewrite H. reflexivity. Qed.

Lemma title_of_run_shape (run : string) :
  all_chars is_upper run = true ->
  let t := title_of_run (fun value => capitalize (toLowerCase value)) run in
  toLowerCase t = toLowerCase run
  /\ has_upper3 t = false
  /\ starts_with is_upper t = starts_with is_upper run
  /\ all_chars not_underscore t = true.
Proof.
  intros Hall t. unfold t. rewrite (title_of_upper_run run Hall).
  destruct (Nat.leb_spec 3 (String.length run)) as [Hge|Hlt].
  - destruct run as [|c run']; [simpl in Hge; lia|].
    cbn [all_chars] in Hall. apply andb_true_iff in Hall. destruct Hall as [Hc Hrun'].
    unfold toLowerCase at 1 2 3 5 6. cbn [map_chars spec_capitalize_first].
    fold (toLowerCase run').
    assert (Hfirst : char_toUpperCase (char_toLowerCase c) = c).
    { pose proof (toLowerCase_upper_is_lower c Hc) as Hl.
      unfold char_toUpperCase. rewrite Hl.
      unfold char_toLowerCase. rewrite Hc.
      unfold is_upper in Hc. apply andb_true_iff in Hc. destruct Hc as [H1 H2].
      apply N.leb_le in H1, H2. unfold code in *.
      rewrite N_ascii_embedding by lia.
      replace (N_of_ascii c + 32 - 32)%N with (N_of_ascii c) by lia.
      apply ascii_N_embedding. }
    rewrite Hfirst.
    assert (Hlow : all_chars (fun d => negb (is_upper d)) (toLowerCase run') = true).
    { apply (all_chars_map is_upper); [|exact Hrun'].
      intros d _. rewrite toLowerCase_is_not_upper. reflexivity. }
    repeat split.
    + unfold toLowerCase. cbn [map_chars]. f_equal.
      apply toLowerCase_string_idem.
    + apply has_upper3_headed, Hlow.
    + cbn [all_chars]. rewrite (upper_not_underscore c Hc). cbn [andb].
      apply (all_chars_map is_upper); [|exact Hrun'].
      intros d Hd. apply lower_not_underscore, toLowerCase_upper_is_lower, Hd.
  - repeat split.
    + apply has_upper3_short, Hlt.
    + apply (all_chars_impl is_upper); [apply upper_not_underscore | exact Hall].
Qed.

Lemma first_run_starts (p : ascii -> bool) (c : ascii) (r : string) :
  starts_with p (take_while (same_class c) (String c r)) = p c.
Proof. cbn [take_while]. rewrite same_class_refl. reflexivity. Qed.

Section RunReplacement.

Let fn : string -> string := fun value => capitalize (toLowerCase value).

Lemma run3_lower (s : string) :
  forall b, toLowerCase (replace_g re_upper_run3 fn 0 b s) = toLowerCase s.
Proof.
  induction s as [|c r IH] using run_ind; intros b; [reflexivity|].
  rewrite run3_step. unfold toLowerCase in *. rewrite map_chars_app, IH.
  rewrite <- (take_drop (same_class c) (String c r)) at 3. rewrite map_chars_app.
  f_equal. destruct (is_upper c) eqn:Ec.
  - apply (title_of_run_shape _ (first_run_upper c r Ec)).
  - rewrite title_of_other_run; [reflexivity|]. rewrite first_run_starts. exact Ec.
Qed.

Lemma run3_starts (s : string) :
  forall b, starts_with is_upper (replace_g re_upper_run3 fn 0 b s)
            = starts_with is_upper s.
Proof.
  destruct s as [|c r]; intros b; [reflexivity|].
  rewrite run3_step. cbn [starts_with].
  destruct (is_upper c) eqn:Ec.
  - destruct (title_of_run_shape _ (first_run_upper c r Ec)) as (Hl & _ & Hs & _).
    rewrite starts_with_app.
    + fold fn in Hs. rewrite Hs, first_run_starts. exact Ec.
    + intros E. fold fn in Hl. rewrite E in Hl.
      pose proof (first_run_nonempty c r) as Hne.
      destruct (take_while (same_class c) (String c r)); [congruence | discriminate Hl].
  - rewrite title_of_other_run by (rewrite first_run_starts; exact Ec).
    rewrite starts_with_app by apply first_run_nonempty.
    rewrite first_run_starts. exact Ec.
Qed.

Lemma run3_no_upper3 (s : string) :
  forall b, has_upper3 (replace_g re_upper_run3 fn 0 b s) = false.
Proof.
  induction s as [|c r IH] using run_ind; intros b; [reflexivity|].
  rewrite run3_step. destruct (is_upper c) eqn:Ec.
  - rewrite has_upper3_app_r, IH.
    + destruct (title_of_run_shape _ (first_run_upper c r Ec)) as (_ & H3 & _).
      fold fn in H3. rewrite H3. reflexivity.
    + rewrite run3_starts. apply after_upper_run, Ec.
  - rewrite title_of_other_run by (rewrite first_run_starts; exact Ec).
    rewrite has_upper3_app_l; [apply IH | apply first_run_other, Ec].
Qed.

Lemma run3_no_underscore (s : string) :
  forall b, all_chars not_underscore s = true ->
            all_chars not_underscore (replace_g re_upper_run3 fn 0 b s) = true.
Proof.
  induction s as [|c r IH] using run_ind; intros b Hs; [reflexivity|].
  rewrite run3_step, all_chars_app.
  rewrite <- (take_drop (same_class c) (String c r)), all_chars_app in Hs.
  apply andb_true_iff in Hs. destruct Hs as [Hrun Hrest].
  rewrite (IH false Hrest), andb_true_r.
  destruct (is_upper c) eqn:Ec.
  - apply (title_of_run_shape _ (first_run_upper c r Ec)).
  - rewrite title_of_other_run; [exact Hrun|]. rewrite first_run_starts. exact Ec.
Qed.

End RunReplacement.

(** Without three consecutive capitals there is nothing to replace. *)
Lemma run3_fixed (fn : string -> string) (s : string) :
  forall b, has_upper3 s = false -> replace_g re_upper_run3 fn 0 b s = s.
Proof.
  induction s as [|c r IH]; intros b H; [reflexivity|].
  rewrite replace_g_0, re_upper_run3_eq.
  pose proof (has_upper3_prefix_len _ H) as Hlt.
  destruct (Nat.leb_spec 3 (prefix_len is_upper (String c r))) as [Hge|_]; [lia|].
  rewrite IH; [reflexivity|].
  rewrite has_upper3_eq in H. apply orb_false_iff in H. exact (proj2 H).
Qed.

Lemma underscores_to_spaces_clean (s : string) :
  all_chars not_underscore (spec_underscores_to_spaces s) = true.
Proof.
  unfold spec_underscores_to_spaces.
  induction s as [|c r IH]; [reflexivity|].
  cbn [map_chars all_chars]. rewrite IH, andb_true_r.
  destruct (Ascii.eqb c "_") eqn:E; [reflexivity|].
  unfold not_underscore. rewrite E. reflexivity.
Qed.

Lemma underscores_to_spaces_fixed (s : string) :
  all_chars not_underscore s = true -> spec_underscores_to_spaces s = s.
Proof.
  apply map_chars_fixed. intros c Hc. unfold not_underscore in Hc.
  apply negb_true_iff in Hc. rewrite Hc. reflexivity.
Qed.

Lemma underscores_to_spaces_upper3 (s : string) :
  has_upper3 (spec_underscores_to_spaces s) = has_upper3 s.
Proof.
  apply has_upper3_map. intros c.
  destruct (Ascii.eqb c "_") eqn:E; [|reflexivity].
  apply Ascii.eqb_eq in E. subst. reflexivity.
Qed.

Lemma underscores_to_spaces_lower (s : string) :
  toLowerCase (spec_underscores_to_spaces s) =
  spec_underscores_to_spaces (toLowerCase s).
Proof.
  unfold toLowerCase, spec_underscores_to_spaces.
  induction s as [|c r IH]; [reflexivity|].
  cbn [map_chars]. rewrite IH. f_equal.
  destruct (Ascii.eqb c "_") eqn:E.
  - apply Ascii.eqb_eq in E. subst. reflexivity.
  - assert (E' : Ascii.eqb (char_toLowerCase c) "_" = false).
    { destruct (is_upper c) eqn:Eu.
      - pose proof (lower_not_underscore _ (toLowerCase_upper_is_lower c Eu)) as Hn.
        unfold not_underscore in Hn. apply negb_true_iff in Hn. exact Hn.
      - rewrite (toLowerCase_not_upper c Eu). exact E. }
    rewrite E'. reflexivity.
Qed.

Lemma id_label_code_eq (value : string) :
  id_label_code value =
  replace_g re_upper_run3 (fun value => capitalize (toLowerCase value)) 0 true
    (spec_underscores_to_spaces value).
Proof.
  unfold id_label_code, replace. rewrite replace_re_underscore. reflexivity.
Qed.

Lemma logicalTypeValueLabel_id `{Compliance} :
  logicalTypeValueLabel K_id =
  map (fun value => {| FieldFormatDropdownOption.value := value;
                       FieldFormatDropdownOption.label := id_label_code value |})
      idLogicalTypes.
Proof. reflexivity. Qed.

Lemma id_label_code_idem (value : string) :
  id_label_code (id_label_code value) = id_label_code value.
Proof.
  rewrite (id_label_code_eq (id_label_code value)).
  assert (Hclean : all_chars not_underscore (id_label_code value) = true).
  { rewrite id_label_code_eq. apply run3_no_underscore, underscores_to_spaces_clean. }
  rewrite (underscores_to_spaces_fixed _ Hclean).
  apply run3_fixed. rewrite id_label_code_eq. apply run3_no_upper3.
Qed.

(** ** The identifier labels *)

(** X4.  The label of an identifier logical type differs from its name only
    in letter case and in underscores shown as spaces: lower-casing the label
    gives the lower-cased name with its underscores replaced by spaces, and
    label and name have the same length. *)
Theorem id_label_same_letters :
  forall (C : Compliance),
    Forall (fun o =>
              toLowerCase (FieldFormatDropdownOption.label o) =
              toLowerCase (spec_underscores_to_spaces (FieldFormatDropdownOption.value o))
              /\ String.length (FieldFormatDropdownOption.label o) =
                 String.length (FieldFormatDropdownOption.value o))
           (logicalTypeValueLabel K_id).
Proof.
  intros C. rewrite logicalTypeValueLabel_id. apply Forall_map, Forall_forall.
  intros v _. cbn [FieldFormatDropdownOption.label FieldFormatDropdownOption.value].
  assert (Hl : toLowerCase (id_label_code v) = toLowerCase (spec_underscores_to_spaces v))
    by (rewrite id_label_code_eq; apply run3_lower).
  split; [exact Hl|].
  apply (f_equal String.length) in Hl. unfold toLowerCase, spec_underscores_to_spaces in Hl.
  rewrite !map_chars_length in Hl. exact Hl.
Qed.

(** X5.  No identifier label contains an underscore or three consecutive
    upper-case letters. *)
Theorem id_label_no_underscore_no_acronym :
  forall (C : Compliance),
    Forall (fun o =>
              all_chars not_underscore (FieldFormatDropdownOption.label o) = true
              /\ has_upper3 (FieldFormatDropdownOption.label o) = false)
           (logicalTypeValueLabel K_id).
Proof.
  intros C. rewrite logicalTypeValueLabel_id. apply Forall_map, Forall_forall.
  intros v _. cbn [FieldFormatDropdownOption.label].
  rewrite id_label_code_eq. split.
  - apply run3_no_underscore, underscores_to_spaces_clean.
  - apply run3_no_upper3.
Qed.

(** X6.  Deriving identifier labels is idempotent: when the labels are used
    as the identifier logical types, the labels derived from them are the
    same labels. *)
Theorem id_label_idempotent :
  forall (C : Compliance),
    let labels := map FieldFormatDropdownOption.label (@logicalTypeValueLabel C K_id) in
    map FieldFormatDropdownOption.label
        (@logicalTypeValueLabel (with_idLogicalTypes C labels) K_id)
    = labels.
Proof.
  intros C labels. unfold labels. rewrite !logicalTypeValueLabel_id.
  cbn [idLogicalTypes with_idLogicalTypes].
  rewrite !map_map. cbn [FieldFormatDropdownOption.label].
  apply map_ext. intros v. apply id_label_code_idem.
Qed.

(** X7.  A name without three consecutive upper-case letters, such as one
    whose only capitals form the acronym "ID", keeps its capitals: its label
    is the name with underscores replaced by spaces. *)
Theorem id_label_keeps_short_acronyms :
  forall (C : Compliance) (o : IFieldFormatDropdownOption),
    In o (logicalTypeValueLabel K_id) ->
    has_upper3 (FieldFormatDropdownOption.value o) = false ->
    FieldFormatDropdownOption.label o =
    spec_underscores_to_spaces (FieldFormatDropdownOption.value o).
Proof.
  intros C o Hin H3. rewrite logicalTypeValueLabel_id in Hin.
  apply in_map_iff in Hin. destruct Hin as [v [<- _]].
  cbn [FieldFormatDropdownOption.label FieldFormatDropdownOption.value] in *.
  rewrite id_label_code_eq. apply run3_fixed.
  rewrite underscores_to_spaces_upper3. exact H3.
Qed.

Lemma id_label_keeps_short_acronyms_witness :
  let o := {| FieldFormatDropdownOption.value := "ID";
              FieldFormatDropdownOption.label := "ID" |} in
  In o (@logicalTypeValueLabel sample_compliance K_id)
  /\ has_upper3 (FieldFormatDropdownOption.value o) = false
  /\ FieldFormatDropdownOption.label o =
     spec_underscores_to_spaces (FieldFormatDropdownOption.value o).
Proof.
  assert (Hin : In {| FieldFormatDropdownOption.value := "ID";
                      FieldFormatDropdownOption.label := "ID" |}
                   (@logicalTypeValueLabel sample_compliance K_id))
    by (left; reflexivity).
  split; [exact Hin|]. split; [reflexivity|].
  exact (id_label_keeps_short_acronyms sample_compliance _ Hin eq_refl).
Defined.

(** ** What the tables hold *)

Lemma values_In {V : Type} (o : JsObject.t V) (c : V) :
  NoDup (JsObject.keys o) ->
  (In c (JsObject.values o) <-> exists k, JsObject.get o k = Some c).
Proof.
  induction o as [|[k0 v0] o IH]; intros Hnd.
  - simpl. split; [tauto | intros [k Hk]; discriminate Hk].
  - inversion Hnd as [|? ? Hk0 Hnd']; subst.
    cbn [JsObject.values map snd JsObject.get]. split.
    + intros [E | Hin].
      * exists k0. rewrite String.eqb_refl, E. reflexivity.
      * apply (IH Hnd') in Hin. destruct Hin as [k Hk]. exists k.
        destruct (String.eqb k0 k) eqn:E; [|exact Hk].
        apply String.eqb_eq in E. subst k0.
        apply get_None_keys in Hk0. congruence.
    + intros [k Hk]. destruct (String.eqb k0 k).
      * left. congruence.
      * right. apply (IH Hnd'). exists k. exact Hk.
Qed.

Section TableContents.

Context `{Compliance}.

Lemma default_get_cases (k : string) :
  JsObject.get defaultFieldDataTypeClassification k =
  if mem k genericLogicalTypes
  then Some (classification (nonIdFieldLogicalTypes k))
  else if mem k (customIdLogicalTypes ++ idLogicalTypes)
       then Some LimitedDistribution
       else None.
Proof.
  rewrite defaultFieldDataTypeClassification_get,
    nonIdFieldDataTypeClassification_get, idFieldDataTypeClassification_get.
  destruct (mem k genericLogicalTypes); reflexivity.
Qed.

Lemma default_values_In (c : Classification) :
  In c (JsObject.values defaultFieldDataTypeClassification) <->
  (exists k, In k genericLogicalTypes /\ c = classification (nonIdFieldLogicalTypes k))
  \/ (c = LimitedDistribution
      /\ exists k, In k (customIdLogicalTypes ++ idLogicalTypes)
                   /\ ~ In k genericLogicalTypes).
Proof.
  rewrite (values_In _ _ defaultFieldDataTypeClassification_keys_NoDup). split.
  - intros [k Hk]. rewrite default_get_cases in Hk.
    destruct (mem k genericLogicalTypes) eqn:Eg.
    + left. exists k. split; [apply mem_In, Eg | congruence].
    + destruct (mem k (customIdLogicalTypes ++ idLogicalTypes)) eqn:Ei; [|discriminate Hk].
      right. split; [congruence|]. exists k.
      split; [apply mem_In, Ei | apply mem_false, Eg].
  - intros [[k [Hk ->]] | [-> [k [Hi Hg]]]]; exists k; rewrite default_get_cases.
    + apply mem_In in Hk. rewrite Hk. reflexivity.
    + apply mem_false in Hg. apply mem_In in Hi. rewrite Hg, Hi. reflexivity.
Qed.

Lemma option_values :
  map SecurityClassificationOption.value securityClassificationDropdownOptions
  = "" :: JsArray.sort classifiers.
Proof.
  unfold securityClassificationDropdownOptions.
  rewrite map_map. cbn [SecurityClassificationOption.value]. apply map_id.
Qed.

Lemma sorted_classifiers_In (c : Classification) :
  In c (JsArray.sort classifiers) <->
  In c (JsObject.values defaultFieldDataTypeClassification).
Proof.
  rewrite <- (distinct_In c (JsObject.values defaultFieldDataTypeClassification)).
  rewrite <- classifiers_distinct.
  split; apply Permutation_in;
    [apply sort_Permutation | apply Permutation_sym, sort_Permutation].
Qed.

End TableContents.

(** X8.  The initialiser of [classifiers] (l.85-87) evaluates to an array
    that holds every classification of the merged map exactly once, in the
    order in which the classifications first occur among the values of the
    map.  [classifiers.sort()] at l.103 then sorts that array in place: once
    the options are built, [classifiers] holds the same classifications in
    strictly ascending order, and they are the values of the options after the
    sentinel. *)
Theorem classifiers_distinct_then_sorted :
  forall (C : Compliance),
    classifiers = distinct (JsObject.values defaultFieldDataTypeClassification)
    /\ NoDup classifiers
    /\ (forall c, In c classifiers <->
                  In c (JsObject.values defaultFieldDataTypeClassification))
    /\ fst (JsArray.sort_in_place classifiers) = classifiers_loaded
    /\ Permutation classifiers_loaded classifiers
    /\ StronglySorted str_lt classifiers_loaded
    /\ map SecurityClassificationOption.value (tl securityClassificationDropdownOptions)
       = classifiers_loaded.
Proof.
  intros C.
  assert (Hnd : NoDup classifiers) by (rewrite classifiers_distinct; apply distinct_NoDup).
  repeat apply conj.
  - apply classifiers_distinct.
  - exact Hnd.
  - intros c. rewrite classifiers_distinct. apply distinct_In.
  - reflexivity.
  - apply sort_Permutation.
  - apply Sorted_NoDup_strict; [apply sort_Sorted|].
    apply (Permutation_NoDup (Permutation_sym (sort_Permutation classifiers))), Hnd.
  - unfold securityClassificationDropdownOptions. cbn [map tl].
    rewrite map_map. cbn [SecurityClassificationOption.value]. apply map_id.
Qed.

(** X9.  In the merged map a generic logical-type name always carries the
    classification of its registry entry, also when the same name is listed
    as an identifier logical type: the non-ID map is spread last and
    overrides the ID map. *)
Theorem defaultFieldDataTypeClassification_generic_wins :
  forall (C : Compliance) (k : string),
    In k genericLogicalTypes ->
    JsObject.get defaultFieldDataTypeClassification k =
    Some (classification (nonIdFieldLogicalTypes k)).
Proof.
  intros C k Hk. rewrite default_get_cases.
  apply mem_In in Hk. rewrite Hk. reflexivity.
Qed.

Lemma defaultFieldDataTypeClassification_generic_wins_witness :
  In "ID" (@genericLogicalTypes sample_overlapping)
  /\ In "ID" (@idLogicalTypes sample_overlapping)
  /\ JsObject.get (@defaultFieldDataTypeClassification sample_overlapping) "ID"
     = Some "highlyConfidential".
Proof.
  split; [right; left; reflexivity|]. split; [left; reflexivity|].
  apply (defaultFieldDataTypeClassification_generic_wins sample_overlapping "ID").
  right; left; reflexivity.
Defined.

(** X10.  The own properties of the merged map are named by the logical
    types and by nothing else: a name is an own key of
    [defaultFieldDataTypeClassification] exactly when it is in one of the
    three enumerations of logical types, and then the map has an own entry for
    it. *)
Theorem defaultFieldDataTypeClassification_own_keys :
  forall (C : Compliance) (k : string),
    (In k (JsObject.keys defaultFieldDataTypeClassification) <->
     In k (customIdLogicalTypes ++ idLogicalTypes ++ genericLogicalTypes))
    /\ (JsObject.get defaultFieldDataTypeClassification k = None <->
        ~ In k (JsObject.keys defaultFieldDataTypeClassification)).
Proof.
  intros C k. split; [|apply get_None_keys].
  rewrite defaultFieldDataTypeClassification_keys_In,
    idFieldDataTypeClassification_keys_In, nonIdFieldDataTypeClassification_keys_In.
  rewrite app_assoc, !in_app_iff. reflexivity.
Qed.

(** X11.  The classifications offered by the dropdown after the sentinel are
    the classifications of the registry entries of the generic logical types,
    and [LimitedDistribution] when some identifier logical type is not also a
    generic one. *)
Theorem securityClassificationDropdownOptions_offered :
  forall (C : Compliance) (c : Classification),
    In c (map SecurityClassificationOption.value
              (tl securityClassificationDropdownOptions)) <->
    (exists k, In k genericLogicalTypes /\ c = classification (nonIdFieldLogicalTypes k))
    \/ (c = LimitedDistribution
        /\ exists k, In k (customIdLogicalTypes ++ idLogicalTypes)
                     /\ ~ In k genericLogicalTypes).
Proof.
  intros C c. rewrite <- default_values_In, <- sorted_classifiers_In.
  assert (E : map SecurityClassificationOption.value
                  (tl securityClassificationDropdownOptions)
              = tl (map SecurityClassificationOption.value
                        securityClassificationDropdownOptions))
    by (destruct securityClassificationDropdownOptions; reflexivity).
  rewrite E, option_values. reflexivity.
Qed.

(** X12.  The values of the dropdown options are pairwise different exactly
    when no classification of the merged map is the empty string; an empty
    classification would appear as a second option with the sentinel's empty
    value. *)
Theorem securityClassificationDropdownOptions_values_distinct :
  forall (C : Compliance),
    NoDup (map SecurityClassificationOption.value securityClassificationDropdownOptions)
    <-> ~ In "" (JsObject.values defaultFieldDataTypeClassification).
Proof.
  intros C. rewrite option_values, <- sorted_classifiers_In. split.
  - intros Hnd. inversion Hnd; assumption.
  - intros Hin. constructor; [exact Hin|].
    apply (Permutation_NoDup (Permutation_sym (sort_Permutation classifiers))).
    rewrite classifiers_distinct. apply distinct_NoDup.
Qed.

(** ** The labels of the dropdown *)





(** ** Identifier types, continued *)

(** X14.  A default logical type exists only for an identifier type whose
    field format is predefined; and when the generic and the custom category
    have different values, no identifier type is both mixed and custom, and
    the custom one has a predefined field format but no default logical
    type. *)
Theorem getDefaultLogicalType_only_for_predefined :
  forall (T : FieldIdentifierTypes),
    (forall identifierType l,
        getDefaultLogicalType identifierType = Some l ->
        l = "URN" /\ hasPredefinedFieldFormat identifierType = true)
    /\ (IdentifierType.value generic <> IdentifierType.value custom ->
        (forall identifierType,
            isMixedId identifierType && isCustomId identifierType = false)
        /\ hasPredefinedFieldFormat (IdentifierType.value custom) = true
        /\ getDefaultLogicalType (IdentifierType.value custom) = None).
Proof.
  intros T. split.
  - intros t l. unfold getDefaultLogicalType, hasPredefinedFieldFormat.
    destruct (isMixedId t); intros E; [|discriminate E].
    injection E as <-. split; reflexivity.
  - intros Hne.
    assert (Hc : isMixedId (IdentifierType.value custom) = false).
    { unfold isMixedId. apply String.eqb_neq. congruence. }
    repeat split.
    + intros t. destruct (isMixedId t) eqn:Em; [|reflexivity].
      destruct (isCustomId t) eqn:Ec; [|reflexivity].
      apply isMixedId_iff in Em. apply isCustomId_iff in Ec. congruence.
    + unfold hasPredefinedFieldFormat, isCustomId. rewrite String.eqb_refl.
      apply orb_true_r.
    + unfold getDefaultLogicalType. rewrite Hc. reflexivity.
Qed.

Lemma getDefaultLogicalType_only_for_predefined_witness :
  IdentifierType.value (@generic spec_fieldIdentifierTypes)
  <> IdentifierType.value (@custom spec_fieldIdentifierTypes)
  /\ @hasPredefinedFieldFormat spec_fieldIdentifierTypes "custom" = true
  /\ @getDefaultLogicalType spec_fieldIdentifierTypes "custom" = None.
Proof.
  assert (Hne : IdentifierType.value (@generic spec_fieldIdentifierTypes)
                <> IdentifierType.value (@custom spec_fieldIdentifierTypes))
    by (simpl; discriminate).
  split; [exact Hne|].
  exact (proj2 (proj2 (getDefaultLogicalType_only_for_predefined
                         spec_fieldIdentifierTypes) Hne)).
Defined.

(** ** Logical-type options and the merged map *)

(** X15.  Every logical type offered by [logicalTypeValueLabel] has a default
    classification in the merged map: a generic one has the classification of
    its registry entry, and an identifier one that is not also listed as
    generic has [LimitedDistribution]. *)
Theorem logicalTypeValueLabel_values_classified :
  forall (C : Compliance) (logicalType : LogicalTypeKind) (o : IFieldFormatDropdownOption),
    In o (logicalTypeValueLabel logicalType) ->
    exists c,
      JsObject.get defaultFieldDataTypeClassification (FieldFormatDropdownOption.value o)
      = Some c
      /\ (logicalType = K_generic ->
          c = classification (nonIdFieldLogicalTypes (FieldFormatDropdownOption.value o)))
      /\ (logicalType = K_id ->
          ~ In (FieldFormatDropdownOption.value o) genericLogicalTypes ->
          c = LimitedDistribution).
Proof.
  intros C logicalType o Hin. unfold logicalTypeValueLabel in Hin.
  apply in_map_iff in Hin. destruct Hin as [v [<- Hv]].
  cbn [FieldFormatDropdownOption.value]. rewrite default_get_cases.
  destruct logicalType.
  - destruct (mem v genericLogicalTypes) eqn:Eg.
    + eexists. split; [reflexivity|]. split; [discriminate|].
      intros _ Hg. apply mem_false in Hg. congruence.
    + assert (Hi : mem v (customIdLogicalTypes ++ idLogicalTypes) = true)
        by (apply mem_In, in_or_app; right; exact Hv).
      rewrite Hi. eexists. split; [reflexivity|]. split; [discriminate | reflexivity].
  - apply mem_In in Hv. rewrite Hv. eexists.
    split; [reflexivity|]. split; [reflexivity | discriminate].
Qed.

Lemma logicalTypeValueLabel_values_classified_witness :
  let o := {| FieldFormatDropdownOption.value := "URN";
              FieldFormatDropdownOption.label := "Urn" |} in
  In o (@logicalTypeValueLabel sample_compliance K_id)
  /\ exists c,
       JsObject.get (@defaultFieldDataTypeClassification sample_compliance) "URN" = Some c.
Proof.
  assert (Hin : In {| FieldFormatDropdownOption.value := "URN";
                      FieldFormatDropdownOption.label := "Urn" |}
                   (@logicalTypeValueLabel sample_compliance K_id))
    by (right; left; reflexivity).
  split; [exact Hin|].
  destruct (logicalTypeValueLabel_values_classified sample_compliance K_id _ Hin)
    as [c [Hc _]].
  exists c. exact Hc.
Defined.
